(** * Veo Studio: the video-generation client and the view state machine

    A shallow embedding of [services/geminiService.ts] ([parseScript],
    [generateVideo]), of [App.tsx] (the handlers and the render guards) and of
    [components/DirectorView.tsx] / [components/PromptForm.tsx] (the handlers
    and the buttons that reach them).

    Asynchronous functions are cut at their [await]s: the remote service and
    the browser are an explicit world that every awaited call transforms, and
    every call leaves an event in a trace.  The React components are a
    labelled transition system whose actions are the rendered buttons and the
    settlement of the promises in flight. *)

From Stdlib Require Import ZArith Lia.
From stdpp Require Import base option list strings pretty.

Local Open Scope string_scope.
Local Open Scope list_scope.

(** ** Values of the JavaScript side *)

Set Warnings "-register-all".

(** A value produced by [JSON.parse].  A number is kept as the bit pattern of
    its IEEE-754 binary64 representation. *)
Inductive json : Type :=
  | JNull
  | JBool (b : bool)
  | JNum (bits : Z)
  | JStr (s : string)
  | JArr (items : list json)
  | JObj (fields : list (string * json)).

(** [None] is [undefined]. *)
Definition jsval : Type := option json.

Definition num_truthy (bits : Z) : bool :=
  let e := ((bits / 2 ^ 52) mod 2 ^ 11)%Z in
  let m := (bits mod 2 ^ 52)%Z in
  negb (((e =? 0) && (m =? 0)) || ((e =? 2047) && negb (m =? 0)))%Z.

Definition str_truthy (s : string) : bool :=
  match s with EmptyString => false | _ => true end.

(** The condition of [if (v)] and the left operand of [v || w]. *)
Definition truthy (v : jsval) : bool :=
  match v with
  | None | Some JNull => false
  | Some (JBool b) => b
  | Some (JNum bits) => num_truthy bits
  | Some (JStr s) => str_truthy s
  | Some (JArr _) | Some (JObj _) => true
  end.

Fixpoint assoc (k : string) (fields : list (string * json)) : jsval :=
  match fields with
  | [] => None
  | (k', v) :: rest => if String.eqb k k' then Some v else assoc k rest
  end.

(** What is thrown: an [Error] (or a subclass raised by the runtime, such as
    [TypeError]) with its message, or a value that is not an [Error]. *)
Inductive thrown : Type :=
  | ErrorObj (name message : string)
  | NonError.

Definition new_Error (message : string) : thrown := ErrorObj "Error" message.

(** Reading property [k] of [undefined] or [null]; the wording is V8's. *)
Definition TypeError_read (of_ k : string) : thrown :=
  ErrorObj "TypeError"
    ("Cannot read properties of " ++ of_ ++ " (reading '" ++ k ++ "')").

(** An awaited call of the outside world settles one way or the other. *)
Inductive settled (A : Type) : Type :=
  | Resolved (a : A)
  | Rejected (e : thrown).
Arguments Resolved {A} a.
Arguments Rejected {A} e.

(** [scene.title], [scene.prompt] on a parsed value: only [null] throws (an
    element of a parsed array is never [undefined]); a primitive or an array
    has no such property. *)
Definition getField (k : string) (v : json) : settled jsval :=
  match v with
  | JNull => Rejected (TypeError_read "null" k)
  | JObj fields => Resolved (assoc k fields)
  | _ => Resolved None
  end.

(** ** types.ts, as the sources use it *)

Inductive AppState := IDLE | LOADING | SUCCESS | ERROR | DIRECTOR_READY.

Inductive GenerationMode :=
  | TEXT_TO_VIDEO | FRAMES_TO_VIDEO | REFERENCES_TO_VIDEO | EXTEND_VIDEO
  | DIRECTOR.

Inductive AspectRatio := LANDSCAPE | PORTRAIT.
Inductive Resolution := P720 | P1080.
Definition VeoModel : Type := string.

Inductive SceneStatus :=
  | status_idle | status_generating | status_done | status_error.

#[global] Instance AppState_eq_dec : EqDecision AppState.
Proof. solve_decision. Defined.
#[global] Instance GenerationMode_eq_dec : EqDecision GenerationMode.
Proof. solve_decision. Defined.
#[global] Instance SceneStatus_eq_dec : EqDecision SceneStatus.
Proof. solve_decision. Defined.
#[global] Instance Resolution_eq_dec : EqDecision Resolution.
Proof. solve_decision. Defined.

(** [ImageFile]: of the [File] only [file.type] is read. *)
Record ImageFile := { file_type : string; base64 : string }.

(** The SDK's [Video]; only [uri] is read. *)
Record Video := { uri : option string }.

Module Params.
Record t := {
  prompt : jsval;
  model : VeoModel;
  aspectRatio : AspectRatio;
  resolution : Resolution;
  mode : GenerationMode;
  startFrame : option ImageFile;
  endFrame : option ImageFile;
  referenceImages : option (list ImageFile);
  inputVideoObject : option Video;
  isLooping : option bool
}.
End Params.
Abbreviation GenerateVideoParams := Params.t.

Module Scene.
Record t := {
  id : string;
  title : jsval;
  prompt : jsval;
  videoUrl : option string;
  videoObject : option Video;
  status : SceneStatus
}.
End Scene.
Abbreviation StoryboardScene := Scene.t.

(** ** The request of [ai.models.generateVideos] *)

Record ImagePayload := { imageBytes : string; mimeType : string }.

Inductive VideoGenerationReferenceType := ASSET.

Record VideoGenerationReferenceImage := {
  image : ImagePayload;
  referenceType : VideoGenerationReferenceType
}.

Module Config.
Record t := {
  numberOfVideos : Z;
  resolution : Resolution;
  aspectRatio : option AspectRatio;
  lastFrame : option ImagePayload;
  referenceImages : option (list VideoGenerationReferenceImage)
}.
End Config.

Module Payload.
Record t := {
  model : VeoModel;
  config : Config.t;
  prompt : option json;
  image : option ImagePayload;
  video : option Video
}.
End Payload.

(** ** The responses of the service and of [fetch] *)

Record GeneratedVideo := { video : option Video }.
Record GenerateVideosResponse := { generatedVideos : option (list GeneratedVideo) }.

(** The long-running operation handle; a missing [done] is [false]. *)
Record Operation := {
  op_name : string;
  op_done : bool;
  op_response : option GenerateVideosResponse
}.

Record Blob := { blob_bytes : string; blob_type : string }.
Record FetchResponse := { ok : bool; status : nat; body : Blob }.

Module GenerateContent.
Record request := {
  model : string;
  contents : string;
  responseMimeType : string
}.
(** [response.text] is [undefined] when the answer has no text part. *)
Record response := { text : option string }.
End GenerateContent.

Module VideoResult.
Record t := { objectUrl : string; blob : Blob; uri : string; video : Video }.
End VideoResult.

(** ** Building the request (geminiService.ts, lines 62-115) *)

(** [img.file.type || 'image/png'] *)
Definition mimeType_of (img : ImageFile) : string :=
  if str_truthy (file_type img) then file_type img else "image/png".

Definition imagePayload (img : ImageFile) : ImagePayload :=
  {| imageBytes := base64 img; mimeType := mimeType_of img |}.

(** [params.isLooping ? params.startFrame : params.endFrame] *)
Definition finalEndFrame (params : GenerateVideoParams) : option ImageFile :=
  match Params.isLooping params with
  | Some true => Params.startFrame params
  | _ => Params.endFrame params
  end.

(** The loop that fills [referenceImagesPayload], then the
    [length > 0] test. *)
Definition referenceImagesPayload (params : GenerateVideoParams)
  : list VideoGenerationReferenceImage :=
  match Params.referenceImages params with
  | Some imgs =>
      map (fun img => {| image := imagePayload img; referenceType := ASSET |}) imgs
  | None => []
  end.

Definition buildConfig (params : GenerateVideoParams) : Config.t :=
  {| Config.numberOfVideos := 1;
     Config.resolution := Params.resolution params;
     Config.aspectRatio :=
       if decide (Params.mode params = EXTEND_VIDEO) then None
       else Some (Params.aspectRatio params);
     Config.lastFrame :=
       match Params.mode params with
       | FRAMES_TO_VIDEO => imagePayload <$> finalEndFrame params
       | _ => None
       end;
     Config.referenceImages :=
       match Params.mode params with
       | REFERENCES_TO_VIDEO =>
           match referenceImagesPayload params with
           | [] => None
           | l => Some l
           end
       | _ => None
       end |}.

Definition extend_error : thrown :=
  new_Error "An input video object is required to extend a video.".

(** Everything [generateVideo] does before its first [await]: the payload,
    or the error thrown in [EXTEND_VIDEO] mode without an input video. *)
Definition buildPayload (params : GenerateVideoParams) : settled Payload.t :=
  let payload video :=
    {| Payload.model := Params.model params;
       Payload.config := buildConfig params;
       Payload.prompt :=
         if truthy (Params.prompt params) then Params.prompt params else None;
       Payload.image := imagePayload <$> Params.startFrame params;
       Payload.video := video |} in
  match Params.mode params with
  | EXTEND_VIDEO =>
      match Params.inputVideoObject params with
      | Some v => Resolved (payload (Some v))
      | None => Rejected extend_error
      end
  | _ => Resolved (payload None)
  end.

(** ** The request of [parseScript] and the scenes it builds *)

Definition nl : string := String (Ascii.ascii_of_nat 10) EmptyString.

(** The template literal of lines 19-24. *)
Definition script_contents (script : string) : string :=
  "Analyze the following video script/brief and break it into 5 distinct cinematic scenes for an AI video generator. " ++ nl ++
  "    Each scene should have a clear visual prompt that describes the camera angle, lighting, and action. " ++ nl ++
  "    Ensure the prompts describe a consistent environment and character." ++ nl ++
  "    " ++ nl ++
  "    Script:" ++ nl ++
  "    " ++ script.

(** The request of lines 17-39; its [responseSchema] is a constant (an
    array of objects with string fields [title] and [prompt]) and is not
    carried along. *)
Definition script_request (script : string) : GenerateContent.request :=
  {| GenerateContent.model := "gemini-3-flash-preview";
     GenerateContent.contents := script_contents script;
     GenerateContent.responseMimeType := "application/json" |}.

(** The callback of [rawData.map]: [None] when reading [scene.title] or
    [scene.prompt] throws. *)
Definition makeScene (index : nat) (scene : json) : option StoryboardScene :=
  match getField "title" scene, getField "prompt" scene with
  | Resolved title, Resolved prompt =>
      Some {| Scene.id := "scene-" ++ pretty index;
              Scene.title := title;
              Scene.prompt := prompt;
              Scene.videoUrl := None;
              Scene.videoObject := None;
              Scene.status := status_idle |}
  | _, _ => None
  end.

(** [Array.prototype.map] with that callback, from index [index] on. *)
Fixpoint mapScenes (index : nat) (items : list json)
  : option (list StoryboardScene) :=
  match items with
  | [] => Some []
  | scene :: rest =>
      s ← makeScene index scene;
      ss ← mapScenes (S index) rest;
      Some (s :: ss)
  end.

(** [rawData.map(...)]: a [TypeError] ([None]) unless [rawData] is an array. *)
Definition rawData_map (rawData : json) : option (list StoryboardScene) :=
  match rawData with
  | JArr items => mapScenes 0 items
  | _ => None
  end.

Definition parse_error : thrown :=
  new_Error "Could not interpret the script. Please try a different description.".

(** ** The components: App.tsx, PromptForm.tsx, DirectorView.tsx *)

Module App.
(** The [useState] cells of [App] that the handlers write. *)
Record t := {
  appState : AppState;
  videoUrl : option string;
  errorMessage : option string;
  lastConfig : option GenerateVideoParams;
  lastVideoObject : option Video;
  lastVideoBlob : option Blob;
  storyboardScenes : list StoryboardScene;
  initialFormValues : option GenerateVideoParams
}.

Definition init : t :=
  {| appState := IDLE; videoUrl := None; errorMessage := None;
     lastConfig := None; lastVideoObject := None; lastVideoBlob := None;
     storyboardScenes := []; initialFormValues := None |}.
End App.

Module Form.
(** What the user has put in the form when the submit button is pressed. *)
Record fields := {
  prompt : string;
  model : VeoModel;
  aspectRatio : AspectRatio;
  resolution : Resolution;
  generationMode : GenerationMode;
  startFrame : option ImageFile;
  endFrame : option ImageFile;
  referenceImages : list ImageFile;
  inputVideoObject : option Video;
  isLooping : bool
}.

(** The cell of [PromptForm] that guards the submit button. *)
Record t := { isAnalyzing : bool }.

Definition init : t := {| isAnalyzing := false |}.
End Form.

Module Director.
(** The cells of [DirectorView], and the scene indices whose
    [handleGenerateScene] is waiting for [generateVideo]. *)
Record t := {
  scenes : list StoryboardScene;
  globalError : option string;
  inflight : list nat
}.
End Director.

(** Who awaits a [generateVideo] call. *)
Inductive Caller := ByApp | ByScene (index : nat).

(** What a handler can let out: the two calls of the service client,
    [console.error], [alert], and [URL.revokeObjectURL], by which a page ends
    the life of an object URL. *)
Inductive Effect : Type :=
  | EffGenerateVideo (by_ : Caller) (params : GenerateVideoParams)
  | EffParseScript (script : string)
  | EffConsoleError
  | EffAlert (message : string)
  | EffRevokeObjectURL (url : string).

Definition is_call (e : Effect) : bool :=
  match e with EffGenerateVideo _ _ | EffParseScript _ => true | _ => false end.

(** *** App.tsx *)

(** [error instanceof Error ? error.message : 'Unknown error'] *)
Definition error_message (e : thrown) : string :=
  match e with
  | ErrorObj _ message => message
  | NonError => "Unknown error"
  end.

(** [handleGenerate] up to its [await]. *)
Definition handleGenerate_begin (params : GenerateVideoParams) (a : App.t)
  : App.t * list Effect :=
  ({| App.appState := LOADING;
      App.videoUrl := App.videoUrl a;
      App.errorMessage := None;
      App.lastConfig := Some params;
      App.lastVideoObject := App.lastVideoObject a;
      App.lastVideoBlob := App.lastVideoBlob a;
      App.storyboardScenes := App.storyboardScenes a;
      App.initialFormValues := App.initialFormValues a |},
   [EffGenerateVideo ByApp params]).

(** [handleGenerate] from the [await] on: the rest of the [try], or the
    [catch]. *)
Definition handleGenerate_settle (r : settled VideoResult.t) (a : App.t) : App.t :=
  match r with
  | Resolved res =>
      {| App.appState := SUCCESS;
         App.videoUrl := Some (VideoResult.objectUrl res);
         App.errorMessage := App.errorMessage a;
         App.lastConfig := App.lastConfig a;
         App.lastVideoObject := Some (VideoResult.video res);
         App.lastVideoBlob := Some (VideoResult.blob res);
         App.storyboardScenes := App.storyboardScenes a;
         App.initialFormValues := App.initialFormValues a |}
  | Rejected error =>
      {| App.appState := ERROR;
         App.videoUrl := App.videoUrl a;
         App.errorMessage := Some (error_message error);
         App.lastConfig := App.lastConfig a;
         App.lastVideoObject := App.lastVideoObject a;
         App.lastVideoBlob := App.lastVideoBlob a;
         App.storyboardScenes := App.storyboardScenes a;
         App.initialFormValues := App.initialFormValues a |}
  end.

Definition handleDirectorParse (scenes : list StoryboardScene) (a : App.t) : App.t :=
  {| App.appState := DIRECTOR_READY;
     App.videoUrl := App.videoUrl a;
     App.errorMessage := App.errorMessage a;
     App.lastConfig := App.lastConfig a;
     App.lastVideoObject := App.lastVideoObject a;
     App.lastVideoBlob := App.lastVideoBlob a;
     App.storyboardScenes := scenes;
     App.initialFormValues := App.initialFormValues a |}.

Definition handleNewVideo (a : App.t) : App.t :=
  {| App.appState := IDLE;
     App.videoUrl := None;
     App.errorMessage := App.errorMessage a;
     App.lastConfig := App.lastConfig a;
     App.lastVideoObject := App.lastVideoObject a;
     App.lastVideoBlob := App.lastVideoBlob a;
     App.storyboardScenes := [];
     App.initialFormValues := None |}.

(** *** PromptForm.tsx *)

(** A string is held as the UTF-8 bytes of its text.  [String.prototype.trim]
    strips the code points of ECMAScript's WhiteSpace (TAB, VT, FF, SP, NBSP,
    ZWNBSP and the space separators of Unicode) and LineTerminator (LF, CR,
    LS, PS) from both ends. *)
Definition WhiteSpace : list Z :=
  [0x0009; 0x000B; 0x000C; 0x0020; 0x00A0; 0xFEFF;
   0x1680; 0x2000; 0x2001; 0x2002; 0x2003; 0x2004; 0x2005; 0x2006; 0x2007;
   0x2008; 0x2009; 0x200A; 0x202F; 0x205F; 0x3000]%Z.

Definition LineTerminator : list Z := [0x000A; 0x000D; 0x2028; 0x2029]%Z.

Definition is_space (cp : Z) : bool :=
  existsb (Z.eqb cp) (WhiteSpace ++ LineTerminator).

Definition byte_of (c : Ascii.ascii) : Z := Z.of_N (Ascii.N_of_ascii c).

(** The six low bits of a continuation byte [10xxxxxx]. *)
Definition continuation (c : Ascii.ascii) : option Z :=
  let n := byte_of c in
  if ((0x80 <=? n) && (n <=? 0xBF))%Z then Some (Z.land n 0x3F) else None.

(** [!prompt.trim()]: nothing is left once the white space is stripped, that
    is, the text is white space from end to end.  The code points are read
    off one, two or three bytes, shortest form only; no code point of four
    bytes is white space. *)
Fixpoint blank (s : string) : bool :=
  match s with
  | EmptyString => true
  | String a s1 =>
      let a := byte_of a in
      if (a <? 0x80)%Z then is_space a && blank s1
      else
        match s1 with
        | EmptyString => false
        | String b s2 =>
            if ((0xC2 <=? a) && (a <=? 0xDF))%Z then
              match continuation b with
              | Some b =>
                  is_space (Z.lor (Z.shiftl (Z.land a 0x1F) 6) b) && blank s2
              | None => false
              end
            else
              match s2 with
              | EmptyString => false
              | String c s3 =>
                  if ((0xE0 <=? a) && (a <=? 0xEF))%Z then
                    match continuation b, continuation c with
                    | Some b, Some c =>
                        let cp := Z.lor (Z.shiftl (Z.land a 0x0F) 12)
                                    (Z.lor (Z.shiftl b 6) c) in
                        (0x800 <=? cp)%Z && is_space cp && blank s3
                    | _, _ => false
                    end
                  else false
              end
        end
  end.

(** The object literal handed to [onGenerate] (lines 194-197). *)
Definition params_of (f : Form.fields) : GenerateVideoParams :=
  {| Params.prompt := Some (JStr (Form.prompt f));
     Params.model := Form.model f;
     Params.aspectRatio := Form.aspectRatio f;
     Params.resolution := Form.resolution f;
     Params.mode := Form.generationMode f;
     Params.startFrame := Form.startFrame f;
     Params.endFrame := Form.endFrame f;
     Params.referenceImages := Some (Form.referenceImages f);
     Params.inputVideoObject := Form.inputVideoObject f;
     Params.isLooping := Some (Form.isLooping f) |}.

(** [disabled={!prompt.trim() || isAnalyzing}] on the submit button. *)
Definition submit_disabled (f : Form.fields) (s : Form.t) : bool :=
  blank (Form.prompt f) || Form.isAnalyzing s.

Definition analysis_failed : string := "Analysis failed. Try simplifying the script.".

(** *** DirectorView.tsx *)

Definition set_status (st : SceneStatus) (s : StoryboardScene) : StoryboardScene :=
  {| Scene.id := Scene.id s; Scene.title := Scene.title s;
     Scene.prompt := Scene.prompt s; Scene.videoUrl := Scene.videoUrl s;
     Scene.videoObject := Scene.videoObject s; Scene.status := st |}.

(** [{...s, status: 'done', videoUrl: result.objectUrl, videoObject: result.video}] *)
Definition set_done (result : VideoResult.t) (s : StoryboardScene) : StoryboardScene :=
  {| Scene.id := Scene.id s; Scene.title := Scene.title s;
     Scene.prompt := Scene.prompt s;
     Scene.videoUrl := Some (VideoResult.objectUrl result);
     Scene.videoObject := Some (VideoResult.video result);
     Scene.status := status_done |}.

(** [prev.map((s, i) => i === index ? f(s) : s)] *)
Definition update_scene (index : nat) (f : StoryboardScene -> StoryboardScene)
  (prev : list StoryboardScene) : list StoryboardScene :=
  imap (fun i s => if decide (i = index) then f s else s) prev.

Definition scene_failed (index : nat) : string :=
  "Failed to generate Scene " ++ pretty (index + 1).

(** ** Promises, the world and the trace *)

(** The state of the promise an [async] function returned.  [Pending] is
    what is observed when the poll loop has not finished within the number of
    iterations looked at. *)
Inductive promise (A : Type) : Type :=
  | Fulfilled (a : A)
  | Failed (e : thrown)
  | Pending.
Arguments Fulfilled {A} a.
Arguments Failed {A} e.
Arguments Pending {A}.

(** The delay of the poll loop, in milliseconds. *)
Definition POLL_DELAY : Z := 10000.
Arguments POLL_DELAY : simpl never.

(** One entry per call that leaves the program, with what it answered. *)
Inductive Event : Type :=
  | EvGenerateContent (req : GenerateContent.request)
      (r : settled GenerateContent.response)
  | EvGenerateVideos (payload : Payload.t) (r : settled Operation)
  | EvSetTimeout (ms : Z)
  | EvGetVideosOperation (operation : Operation) (r : settled Operation)
  | EvFetch (url : string) (r : settled FetchResponse)
  | EvBlob (r : settled Blob)
  | EvCreateObjectURL (b : Blob) (url : string)
  | EvConsoleError.

Section Studio.

(** The state of everything outside the page: the vendor service, the
    network and the browser's URL minting. *)
Variable W : Type.

Variable ai_generateContent :
  GenerateContent.request -> W -> settled GenerateContent.response * W.
Variable ai_generateVideos : Payload.t -> W -> settled Operation * W.
Variable ai_getVideosOperation : Operation -> W -> settled Operation * W.
Variable fetch : string -> W -> settled FetchResponse * W.
Variable res_blob : FetchResponse -> W -> settled Blob * W.
Variable URL_createObjectURL : Blob -> W -> string * W.

(** [JSON.parse]: [None] is a [SyntaxError] (with [message] its text);
    [decodeURIComponent]: [None] is a [URIError]. *)
Variable JSON_parse : string -> option json.
Variable decodeURIComponent : string -> option string.

(** [process.env.API_KEY] as a template literal prints it. *)
Variable API_KEY : string.

(** [VeoModel.VEO_FAST], declared in types.ts. *)
Variable VEO_FAST : VeoModel.

(** The world a run goes through: the outside, and the object URLs that
    are alive in the page (created and not revoked). *)
Record World := { outside : W; objectURLs : list string }.

Record Run (A : Type) := {
  result : promise A;
  world : World;
  trace : list Event
}.
Arguments result {A} _.
Arguments world {A} _.
Arguments trace {A} _.

Definition M (A : Type) : Type := World -> Run A.

Definition ret {A} (a : A) : M A :=
  fun w => {| result := Fulfilled a; world := w; trace := [] |}.

Definition throw {A} (e : thrown) : M A :=
  fun w => {| result := Failed e; world := w; trace := [] |}.

Definition unsettled {A} : M A :=
  fun w => {| result := Pending; world := w; trace := [] |}.

Definition bind {A B} (m : M A) (k : A -> M B) : M B :=
  fun w =>
    let r := m w in
    match result r with
    | Fulfilled a =>
        let r' := k a (world r) in
        {| result := result r'; world := world r';
           trace := trace r ++ trace r' |}
    | Failed e => {| result := Failed e; world := world r; trace := trace r |}
    | Pending => {| result := Pending; world := world r; trace := trace r |}
    end.

#[local] Instance M_ret : MRet M := @ret.
#[local] Instance M_bind : MBind M := fun A B k m => bind m k.

(** [await] of a call of the outside, logged as [ev] of its answer. *)
Definition call {A} (f : W -> settled A * W) (ev : settled A -> Event) : M A :=
  fun w =>
    let '(r, o) := f (outside w) in
    {| result := match r with Resolved a => Fulfilled a | Rejected e => Failed e end;
       world := {| outside := o; objectURLs := objectURLs w |};
       trace := [ev r] |}.

(** [await new Promise((resolve) => setTimeout(resolve, ms))] *)
Definition sleep (ms : Z) : M unit :=
  fun w => {| result := Fulfilled tt; world := w; trace := [EvSetTimeout ms] |}.

(** [URL.createObjectURL(blob)]: the new URL is alive from now on. *)
Definition createObjectURL (b : Blob) : M string :=
  fun w =>
    let '(url, o) := URL_createObjectURL b (outside w) in
    {| result := Fulfilled url;
       world := {| outside := o; objectURLs := url :: objectURLs w |};
       trace := [EvCreateObjectURL b url] |}.

Definition of_settled {A} (r : settled A) : M A :=
  match r with Resolved a => ret a | Rejected e => throw e end.

(** *** generateVideo (geminiService.ts, lines 57-142) *)

(** [while (!operation.done) { await sleep; operation = await get }],
    looked at for at most [fuel] iterations. *)
Fixpoint pollLoop (fuel : nat) (operation : Operation) : M Operation :=
  if op_done operation then ret operation
  else match fuel with
       | O => unsettled
       | S fuel' =>
           sleep POLL_DELAY;;
           operation' ← call (ai_getVideosOperation operation)
                          (EvGetVideosOperation operation);
           pollLoop fuel' operation'
       end.

(** Lines 124-141: what is done with the finished operation. *)
Definition deliver (operation : Operation) : M VideoResult.t :=
  match op_response operation with
  | Some response =>
      match generatedVideos response with
      | None | Some [] => throw (new_Error "No videos were generated.")
      | Some (firstVideo :: _) =>
          match video firstVideo with
          | None => throw (TypeError_read "undefined" "uri")
          | Some videoObject =>
              match decodeURIComponent (default "undefined" (uri videoObject)) with
              | None => throw (ErrorObj "URIError" "URI malformed")
              | Some url =>
                  res ← call (fetch (url ++ "&key=" ++ API_KEY))
                          (EvFetch (url ++ "&key=" ++ API_KEY));
                  if ok res then
                    videoBlob ← call (res_blob res) EvBlob;
                    objectUrl ← createObjectURL videoBlob;
                    ret {| VideoResult.objectUrl := objectUrl;
                           VideoResult.blob := videoBlob;
                           VideoResult.uri := url;
                           VideoResult.video := videoObject |}
                  else
                    throw (new_Error ("Failed to fetch video: " ++ pretty (status res)))
              end
          end
      end
  | None => throw (new_Error "Operation failed.")
  end.

Definition generateVideo (fuel : nat) (params : GenerateVideoParams)
  : M VideoResult.t :=
  generateVideoPayload ← of_settled (buildPayload params);
  operation ← call (ai_generateVideos generateVideoPayload)
                (EvGenerateVideos generateVideoPayload);
  operation ← pollLoop fuel operation;
  deliver operation.

(** *** parseScript (geminiService.ts, lines 14-55) *)

(** The body of the [try]: [JSON.parse(undefined)] parses the text
    [undefined], a [SyntaxError]. *)
Definition parseScript_try (text : option string) : option (list StoryboardScene) :=
  rawData ← text ≫= JSON_parse;
  rawData_map rawData.

Definition console_error : M unit :=
  fun w => {| result := Fulfilled tt; world := w; trace := [EvConsoleError] |}.

Definition parseScript (script : string) : M (list StoryboardScene) :=
  response ← call (ai_generateContent (script_request script))
               (EvGenerateContent (script_request script));
  match parseScript_try (GenerateContent.text response) with
  | Some scenes => ret scenes
  | None => console_error;; throw parse_error
  end.

(** *** The props and handlers of [DirectorView] that read [App]'s cells *)

(** The props [App] hands to [DirectorView] (App.tsx, lines 114-116);
    the members of the enums are non-empty strings. *)
Definition scene_params (a : App.t) (prompt : jsval) : GenerateVideoParams :=
  {| Params.prompt := prompt;
     Params.model :=
       match App.lastConfig a with
       | Some c => if str_truthy (Params.model c) then Params.model c else VEO_FAST
       | None => VEO_FAST
       end;
     Params.aspectRatio := from_option Params.aspectRatio LANDSCAPE (App.lastConfig a);
     Params.resolution := from_option Params.resolution P720 (App.lastConfig a);
     Params.mode := TEXT_TO_VIDEO;
     Params.startFrame := None;
     Params.endFrame := None;
     Params.referenceImages := None;
     Params.inputVideoObject := None;
     Params.isLooping := None |}.

(** The [catch] of [handleGenerateScene]. *)
Definition scene_catch (index : nat) (d : Director.t) : Director.t * list Effect :=
  ({| Director.scenes := update_scene index (set_status status_error) (Director.scenes d);
      Director.globalError := Some (scene_failed index);
      Director.inflight := filter (fun i => i ≠ index) (Director.inflight d) |},
   [EffConsoleError]).

(** [handleGenerateScene] up to its [await].  Out of range, [scene] is
    [undefined] and reading [scene.prompt] throws inside the [try]. *)
Definition handleGenerateScene_begin (a : App.t) (index : nat) (d : Director.t)
  : Director.t * list Effect :=
  let d1 :=
    {| Director.scenes :=
         update_scene index (set_status status_generating) (Director.scenes d);
       Director.globalError := None;
       Director.inflight := Director.inflight d |} in
  match Director.scenes d !! index with
  | Some scene =>
      ({| Director.scenes := Director.scenes d1;
          Director.globalError := Director.globalError d1;
          Director.inflight := index :: Director.inflight d1 |},
       [EffGenerateVideo (ByScene index) (scene_params a (Scene.prompt scene))])
  | None => scene_catch index d1
  end.

(** [handleGenerateScene] from the [await] on. *)
Definition handleGenerateScene_settle (index : nat) (r : settled VideoResult.t)
  (d : Director.t) : Director.t * list Effect :=
  match r with
  | Resolved result =>
      ({| Director.scenes := update_scene index (set_done result) (Director.scenes d);
          Director.globalError := Director.globalError d;
          Director.inflight := filter (fun i => i ≠ index) (Director.inflight d) |},
       [])
  | Rejected _ => scene_catch index d
  end.

(** *** The page: what is mounted and which promises are in flight *)

Record Page := {
  app : App.t;
  form : option Form.t;          (* [PromptForm], mounted in [IDLE] *)
  director : option Director.t;  (* [DirectorView], mounted in [DIRECTOR_READY] *)
  pendingGenerate : nat;         (* [handleGenerate]s at their [await] *)
  pendingParse : nat             (* [handleDirectorAnalysis]es at their [await] *)
}.

Definition mountDirector (a : App.t) : Director.t :=
  {| Director.scenes := App.storyboardScenes a;
     Director.globalError := None;
     Director.inflight := [] |}.

(** The conditional rendering of App.tsx, lines 88-138: a component that
    stays rendered keeps its cells, one that appears starts afresh. *)
Definition render (a : App.t) (f : option Form.t) (d : option Director.t)
  (g p : nat) : Page :=
  {| app := a;
     form := if decide (App.appState a = IDLE)
             then Some (default Form.init f) else None;
     director := if decide (App.appState a = DIRECTOR_READY)
                 then Some (default (mountDirector a) d) else None;
     pendingGenerate := g;
     pendingParse := p |}.

Definition initial : Page := render App.init None None 0 0.

Inductive Action : Type :=
  | Submit (f : Form.fields)
  | ParseSettled (r : settled (list StoryboardScene))
  | GenerateSettled (r : settled VideoResult.t)
  | Retry
  | NewVideo
  | Extend
  | TryAgain
  | NewProject
  | ProduceScene (index : nat)
  | RetryScene (index : nat)
  | SceneSettled (index : nat) (r : settled VideoResult.t).

Definition generate (params : GenerateVideoParams) (pg : Page)
  : Page * list Effect :=
  let '(a, effs) := handleGenerate_begin params (app pg) in
  (render a (form pg) (director pg) (S (pendingGenerate pg)) (pendingParse pg), effs).

Definition newVideo (pg : Page) : Page * list Effect :=
  (render (handleNewVideo (app pg)) (form pg) (director pg)
     (pendingGenerate pg) (pendingParse pg), []).

Definition in_director (pg : Page) (k : Director.t -> Director.t * list Effect)
  : option (Page * list Effect) :=
  d ← director pg;
  let '(d', effs) := k d in
  Some ({| app := app pg; form := form pg; director := Some d';
           pendingGenerate := pendingGenerate pg;
           pendingParse := pendingParse pg |}, effs).

Definition scene_has (st : SceneStatus) (index : nat) (pg : Page) : bool :=
  match director pg ≫= fun d => Director.scenes d !! index with
  | Some s => bool_decide (Scene.status s = st)
  | None => false
  end.

(** One handler run, then the re-render.  [None]: the action is not on
    offer (no such button is rendered, no such promise is in flight).
    [Submit] carries any contents of the form, also those its controls cannot
    produce.  [Retry] is [handleGenerate(lastConfig!)]: it is on offer with
    the result view, where [lastConfig] is set ([success_has_config] below).
    The API-key dialog only toggles a cell of its own and is left out. *)
Definition step (pg : Page) (act : Action) : option (Page * list Effect) :=
  match act with
  | Submit f =>
      s ← form pg;
      if submit_disabled f s then None
      else if decide (Form.generationMode f = DIRECTOR) then
        Some ({| app := app pg;
                 form := Some {| Form.isAnalyzing := true |};
                 director := director pg;
                 pendingGenerate := pendingGenerate pg;
                 pendingParse := S (pendingParse pg) |},
              [EffParseScript (Form.prompt f)])
      else Some (generate (params_of f) pg)
  | ParseSettled r =>
      match pendingParse pg with
      | O => None
      | S p =>
          let f := (fun _ => {| Form.isAnalyzing := false |}) <$> form pg in
          match r with
          | Resolved scenes =>
              Some (render (handleDirectorParse scenes (app pg)) f (director pg)
                      (pendingGenerate pg) p, [])
          | Rejected _ =>
              Some (render (app pg) f (director pg) (pendingGenerate pg) p,
                    [EffConsoleError; EffAlert analysis_failed])
          end
      end
  | GenerateSettled r =>
      match pendingGenerate pg with
      | O => None
      | S g =>
          Some (render (handleGenerate_settle r (app pg)) (form pg) (director pg)
                  g (pendingParse pg), [])
      end
  | Retry =>
      match App.appState (app pg), App.videoUrl (app pg), App.lastConfig (app pg) with
      | SUCCESS, Some url, Some params =>
          if str_truthy url then Some (generate params pg) else None
      | _, _, _ => None
      end
  | NewVideo =>
      match App.appState (app pg), App.videoUrl (app pg) with
      | SUCCESS, Some url => if str_truthy url then Some (newVideo pg) else None
      | _, _ => None
      end
  | Extend =>
      match App.appState (app pg), App.videoUrl (app pg) with
      | SUCCESS, Some url => if str_truthy url then Some (pg, []) else None
      | _, _ => None
      end
  | TryAgain =>
      if decide (App.appState (app pg) = ERROR) then Some (newVideo pg) else None
  | NewProject =>
      if decide (App.appState (app pg) = DIRECTOR_READY) then Some (newVideo pg)
      else None
  | ProduceScene index =>
      if scene_has status_idle index pg
      then in_director pg (handleGenerateScene_begin (app pg) index) else None
  | RetryScene index =>
      if scene_has status_error index pg
      then in_director pg (handleGenerateScene_begin (app pg) index) else None
  | SceneSettled index r =>
      d ← director pg;
      if bool_decide (index ∈ Director.inflight d)
      then in_director pg (handleGenerateScene_settle index r) else None
  end.

(** The pages a session can be in. *)
Inductive reachable : Page -> Prop :=
  | reachable_initial : reachable initial
  | reachable_step pg act pg' effs :
      reachable pg -> step pg act = Some (pg', effs) -> reachable pg'.

(** *** The page together with the world *)

(** A session: the page, the world, and everything that has left the
    program so far. *)
Record System := { page : Page; env : World; history : list Event }.

Definition settle_action (by_ : Caller) (r : settled VideoResult.t) : Action :=
  match by_ with
  | ByApp => GenerateSettled r
  | ByScene index => SceneSettled index r
  end.

Definition to_settled {A} (p : promise A) : option (settled A) :=
  match p with
  | Fulfilled a => Some (Resolved a)
  | Failed e => Some (Rejected e)
  | Pending => None
  end.

(** [handleGenerate] as a whole against the world: the cells of [App] once
    its promise has been looked at, and the run of [generateVideo]. *)
Definition handleGenerate (fuel : nat) (params : GenerateVideoParams)
  (a : App.t) (w : World) : App.t * Run VideoResult.t :=
  let a1 := (handleGenerate_begin params a).1 in
  let r := generateVideo fuel params w in
  (match to_settled (result r) with
   | Some s => handleGenerate_settle s a1
   | None => a1
   end, r).

(** The page after the promise [p] has been looked at: its continuation has
    run if it settled, nothing has happened if it has not. *)
Definition resume (pg : Page) (act : option Action) : Page :=
  match act ≫= step pg with
  | Some (pg', _) => pg'
  | None => pg
  end.

(** Runs what a handler let out against the world: a call of the service
    client up to [fuel] polls, and then the continuation that awaits it; a
    revoked object URL is alive no longer. *)
Definition perform (fuel : nat) (sys : System) (eff : Effect) : System :=
  match eff with
  | EffGenerateVideo by_ params =>
      let r := generateVideo fuel params (env sys) in
      {| page := resume (page sys) (settle_action by_ <$> to_settled (result r));
         env := world r;
         history := history sys ++ trace r |}
  | EffParseScript script =>
      let r := parseScript script (env sys) in
      {| page := resume (page sys) (ParseSettled <$> to_settled (result r));
         env := world r;
         history := history sys ++ trace r |}
  | EffConsoleError | EffAlert _ => sys
  | EffRevokeObjectURL url =>
      {| page := page sys;
         env := {| outside := outside (env sys);
                   objectURLs := filter (fun u => u ≠ url) (objectURLs (env sys)) |};
         history := history sys |}
  end.

(** One action of the user (or one late settlement), with the calls it
    starts carried through. *)
Definition drive (fuel : nat) (sys : System) (act : Action) : option System :=
  '(pg', effs) ← step (page sys) act;
  Some (foldl (perform fuel)
          {| page := pg'; env := env sys; history := history sys |} effs).

(** ** The shape of a poll phase *)

(** [Polling op t r]: starting from an operation [op], the events [t] are
    rounds of one [POLL_DELAY] wait and one status request, each made on an
    operation that was not done, and [r] is where the phase stands. *)
Inductive Polling : Operation -> list Event -> promise Operation -> Prop :=
  | Polling_done op :
      op_done op = true -> Polling op [] (Fulfilled op)
  | Polling_open op :
      op_done op = false -> Polling op [] Pending
  | Polling_rejected op e :
      op_done op = false ->
      Polling op [EvSetTimeout POLL_DELAY; EvGetVideosOperation op (Rejected e)]
        (Failed e)
  | Polling_round op op' t r :
      op_done op = false ->
      Polling op' t r ->
      Polling op
        (EvSetTimeout POLL_DELAY :: EvGetVideosOperation op (Resolved op') :: t) r.

(** The events of the job: the submission, the waits and the status
    requests. *)
Definition is_job_event (e : Event) : bool :=
  match e with
  | EvGenerateVideos _ _ | EvGetVideosOperation _ _ | EvSetTimeout _ => true
  | _ => false
  end.

Definition is_fetch (e : Event) : bool :=
  match e with EvFetch _ _ => true | _ => false end.

Definition is_submit (e : Event) : bool :=
  match e with EvGenerateVideos _ _ => true | _ => false end.

(** What follows the download: reading the body and minting the URL. *)
Definition is_after_fetch (e : Event) : bool :=
  match e with EvBlob _ | EvCreateObjectURL _ _ => true | _ => false end.

(** One round of the poll loop. *)
Definition poll_round (x : Operation * settled Operation) : list Event :=
  [EvSetTimeout POLL_DELAY; EvGetVideosOperation x.1 x.2].

(** ** Properties of the service client *)

Ltac run_bind := unfold mbind, M_bind, bind; simpl.

Lemma pollLoop_Polling fuel : forall op w,
  Polling op (trace (pollLoop fuel op w)) (result (pollLoop fuel op w)).
Proof.
  induction fuel as [|fuel IH]; intros op w; simpl;
    destruct (op_done op) eqn:Hdone; try (by constructor).
  run_bind. unfold call.
  destruct (ai_getVideosOperation op (outside w)) as [[op'|e] o]; simpl.
  - apply Polling_round; [done | apply IH].
  - by apply Polling_rejected.
Qed.

Lemma Polling_fulfilled op t opf :
  Polling op t (Fulfilled opf) -> op_done opf = true.
Proof.
  intros H. remember (Fulfilled opf) as r eqn:Hr.
  induction H; try discriminate; [by inversion Hr; subst | auto].
Qed.

Lemma Polling_job_events op t r :
  Polling op t r -> Forall (fun e => is_job_event e = true) t.
Proof. induction 1; repeat constructor; done. Qed.

Lemma Polling_rounds op t r :
  Polling op t r -> exists rounds, t = concat (poll_round <$> rounds).
Proof.
  induction 1 as [| |op e _|op op' t r _ _ [rounds ->]].
  - by exists [].
  - by exists [].
  - by exists [(op, Rejected e)].
  - by exists ((op, Resolved op') :: rounds).
Qed.

(** What [deliver] lets out: nothing, or one download followed by the
    reading of its body and the minting of the URL. *)
Lemma deliver_trace op w :
  trace (deliver op w) = [] \/
  exists url fr rest,
    trace (deliver op w) = EvFetch url fr :: rest /\
    Forall (fun e => is_after_fetch e = true) rest.
Proof.
  unfold deliver.
  destruct (op_response op) as [response|]; [|by left].
  destruct (generatedVideos response) as [[|firstVideo ?]|]; try (by left).
  destruct (video firstVideo) as [videoObject|]; [|by left].
  destruct (decodeURIComponent _) as [url|]; [|by left].
  right. run_bind. unfold call.
  destruct (fetch _ _) as [[res|e] o]; simpl; [|by eexists _, _, _].
  destruct (ok res); simpl; [|by eexists _, _, _].
  destruct (res_blob res o) as [[videoBlob|e] o']; simpl; [|by eexists _, _, _; eauto].
  unfold createObjectURL; simpl.
  destruct (URL_createObjectURL videoBlob o') as [objectUrl o'']; simpl.
  eexists _, _, _; split; [done|]. by repeat constructor.
Qed.

(** Every run of [generateVideo] is: nothing at all (the request was refused
    before it left), or the submission, then a poll phase, then, only once
    that phase has ended with a finished operation, the delivery. *)
Lemma generateVideo_shape fuel params w :
  let r := generateVideo fuel params w in
  (exists e, buildPayload params = Rejected e /\ trace r = [] /\
             result r = Failed e /\ world r = w) \/
  (exists payload r0, buildPayload params = Resolved payload /\
     match r0 with
     | Rejected e => trace r = [EvGenerateVideos payload r0] /\ result r = Failed e
     | Resolved op0 =>
         exists polls rp tail,
           trace r = EvGenerateVideos payload r0 :: polls ++ tail /\
           Polling op0 polls rp /\
           match rp with
           | Fulfilled opf =>
               tail = [] \/
               exists url fr rest, tail = EvFetch url fr :: rest /\
                 Forall (fun e => is_after_fetch e = true) rest
           | Failed e => tail = [] /\ result r = Failed e
           | Pending => tail = [] /\ result r = Pending
           end
     end).
Proof.
  unfold generateVideo. run_bind.
  destruct (buildPayload params) as [payload|e] eqn:Hp; simpl.
  2:{ left. by exists e. }
  right. unfold call.
  destruct (ai_generateVideos payload (outside w)) as [[op0|e] o] eqn:Hs; simpl.
  2:{ by exists payload, (Rejected e). }
  exists payload, (Resolved op0). split; [done|].
  set (w1 := {| outside := o; objectURLs := objectURLs w |}).
  pose proof (pollLoop_Polling fuel op0 w1) as HP.
  destruct (result (pollLoop fuel op0 w1)) as [opf|e|] eqn:Hr; simpl.
  - eexists _, (Fulfilled opf), _. split; [done|]. split; [done|].
    apply deliver_trace.
  - eexists _, (Failed e), []. by rewrite app_nil_r.
  - eexists _, Pending, []. by rewrite app_nil_r.
Qed.

Lemma split_at_unique {A} (P : A -> bool) (l1 l2 l1' l2' : list A) x x' :
  Forall (fun e => P e = false) l1 -> P x = true ->
  Forall (fun e => P e = false) l2 -> P x' = true ->
  l1 ++ x :: l2 = l1' ++ x' :: l2' ->
  l1 = l1' /\ x = x' /\ l2 = l2'.
Proof.
  intros H1 Hx H2 Hx'. revert l1' H1.
  induction l1 as [|a l1 IH]; intros [|b l1'] H1 Heq; simpl in Heq.
  - by inversion Heq.
  - inversion Heq; subst. rewrite Forall_app, Forall_cons in H2.
    destruct H2 as (_ & Hfalse & _). congruence.
  - inversion Heq; subst. apply Forall_cons in H1 as [Hfalse _]. congruence.
  - inversion Heq; subst. apply Forall_cons in H1 as [_ H1].
    destruct (IH l1' H1) as (-> & -> & ->); done.
Qed.

Lemma no_fetch_in (t pre post : list Event) url fr :
  Forall (fun e => is_fetch e = false) t -> t <> pre ++ EvFetch url fr :: post.
Proof.
  intros H ->. rewrite Forall_app, Forall_cons in H. by destruct H as (_ & ? & _).
Qed.

Lemma job_events_no_fetch (t : list Event) :
  Forall (fun e => is_job_event e = true) t -> Forall (fun e => is_fetch e = false) t.
Proof. intros H. eapply Forall_impl; [exact H|]. by intros []. Qed.

Lemma after_fetch_no_fetch (t : list Event) :
  Forall (fun e => is_after_fetch e = true) t -> Forall (fun e => is_fetch e = false) t.
Proof. intros H. eapply Forall_impl; [exact H|]. by intros []. Qed.

Lemma after_fetch_no_job (t : list Event) :
  Forall (fun e => is_after_fetch e = true) t -> Forall (fun e => is_job_event e = false) t.
Proof. intros H. eapply Forall_impl; [exact H|]. by intros []. Qed.

Lemma Polling_no_submit op t r :
  Polling op t r -> Forall (fun e => is_submit e = false) t.
Proof. induction 1; repeat constructor; done. Qed.

(** A run of [generateVideo] is the submission, then the poll loop on its
    answer, then the delivery of the finished operation. *)
Lemma generateVideo_cases fuel params w :
  let g := generateVideo fuel params w in
  (exists e, buildPayload params = Rejected e /\ result g = Failed e /\
             trace g = [] /\ world g = w) \/
  (exists payload e o,
     buildPayload params = Resolved payload /\
     ai_generateVideos payload (outside w) = (Rejected e, o) /\
     result g = Failed e /\ trace g = [EvGenerateVideos payload (Rejected e)] /\
     objectURLs (world g) = objectURLs w) \/
  (exists payload op0 o,
     buildPayload params = Resolved payload /\
     ai_generateVideos payload (outside w) = (Resolved op0, o) /\
     let p := pollLoop fuel op0 {| outside := o; objectURLs := objectURLs w |} in
     match result p with
     | Fulfilled opf =>
         result g = result (deliver opf (world p)) /\
         world g = world (deliver opf (world p)) /\
         trace g = EvGenerateVideos payload (Resolved op0)
                     :: trace p ++ trace (deliver opf (world p))
     | Failed e =>
         result g = Failed e /\ world g = world p /\
         trace g = EvGenerateVideos payload (Resolved op0) :: trace p
     | Pending =>
         result g = Pending /\ world g = world p /\
         trace g = EvGenerateVideos payload (Resolved op0) :: trace p
     end).
Proof.
  unfold generateVideo. run_bind.
  destruct (buildPayload params) as [payload|e] eqn:Hp; simpl.
  2:{ left. by exists e. }
  right. unfold call.
  destruct (ai_generateVideos payload (outside w)) as [[op0|e] o] eqn:Hs; simpl.
  2:{ left. by exists payload, e, o. }
  right. exists payload, op0, o. split; [done|]. split; [done|]. simpl.
  by destruct (result (pollLoop fuel op0 _)).
Qed.

Lemma pollLoop_pending fuel : forall op w,
  result (pollLoop fuel op w) = Pending ->
  op_done op = false /\
  exists rounds,
    trace (pollLoop fuel op w) = concat (poll_round <$> rounds) /\
    length rounds = fuel /\
    Forall (fun x => exists op', x.2 = Resolved op' /\ op_done op' = false) rounds.
Proof.
  induction fuel as [|fuel IH]; intros op w; simpl;
    destruct (op_done op) eqn:Hdone; try done.
  - intros _. split; [done|]. by exists [].
  - run_bind. unfold call.
    destruct (ai_getVideosOperation op (outside w)) as [[op'|e] o]; simpl; [|done].
    intros Hres. destruct (IH _ _ Hres) as (Hdone' & rounds & Ht & Hlen & Hall).
    split; [done|]. exists ((op, Resolved op') :: rounds). simpl.
    rewrite Ht, Hlen. repeat split; try done. constructor; [by exists op'|done].
Qed.

Lemma no_job_no_submit (t : list Event) :
  Forall (fun e => is_job_event e = false) t -> Forall (fun e => is_submit e = false) t.
Proof. intros H. eapply Forall_impl; [exact H|]. by intros []. Qed.

Lemma deliver_no_job op w :
  Forall (fun e => is_job_event e = false) (trace (deliver op w)).
Proof.
  destruct (deliver_trace op w) as [->|(url & fr & rest & -> & Hrest)]; [done|].
  constructor; [done|]. by apply after_fetch_no_job.
Qed.

(** A finished operation that carries a video with a readable address is
    downloaded from that address, with the key. *)
Lemma deliver_fetches op w response firstVideo others videoObject url :
  op_response op = Some response ->
  generatedVideos response = Some (firstVideo :: others) ->
  video firstVideo = Some videoObject ->
  decodeURIComponent (default "undefined" (uri videoObject)) = Some url ->
  exists post,
    trace (deliver op w) =
      EvFetch (url ++ "&key=" ++ API_KEY)
        (fetch (url ++ "&key=" ++ API_KEY) (outside w)).1 :: post.
Proof.
  intros Hresp Hvids Hvideo Hdec. unfold deliver.
  rewrite Hresp, Hvids, Hvideo, Hdec. run_bind. unfold call.
  destruct (fetch _ _) as [[res|e] o]; simpl; [|by eexists].
  destruct (ok res); simpl; [|by eexists].
  destruct (res_blob res o) as [[videoBlob|e] o']; simpl; [|by eexists].
  unfold createObjectURL; simpl.
  destruct (URL_createObjectURL videoBlob o') as [objectUrl o'']; simpl.
  by eexists.
Qed.

(** C1.  A request that can be built is submitted, first and once.  When
    the service answers with an operation, the run goes on with the rounds of
    the poll loop, each status request made on an operation that was not
    done, and leaves the loop only with an operation that reports done (a
    rejected status request ends the run; while no answer is done the loop
    has made every one of the [fuel] rounds looked at and is still
    unsettled).  The finished operation's video, if it has one with a
    readable address, is then downloaded.  Whenever the run downloads the
    media, everything before the download is the submission followed by poll
    rounds up to an operation that reports done, and after the download
    nothing is submitted, polled or downloaded again. *)
Theorem generateVideo_fetches_after_done fuel params w :
  (forall payload,
     buildPayload params = Resolved payload ->
     exists rest,
       trace (generateVideo fuel params w) =
         EvGenerateVideos payload (ai_generateVideos payload (outside w)).1 :: rest /\
       Forall (fun e => is_submit e = false) rest) /\
  (forall payload op0 o,
     buildPayload params = Resolved payload ->
     ai_generateVideos payload (outside w) = (Resolved op0, o) ->
     exists polls rp tail,
       trace (generateVideo fuel params w) =
         EvGenerateVideos payload (Resolved op0) :: polls ++ tail /\
       Polling op0 polls rp /\
       Forall (fun e => is_job_event e = false) tail /\
       match rp with
       | Fulfilled opf =>
           op_done opf = true /\
           forall response firstVideo others videoObject url,
             op_response opf = Some response ->
             generatedVideos response = Some (firstVideo :: others) ->
             video firstVideo = Some videoObject ->
             decodeURIComponent (default "undefined" (uri videoObject)) = Some url ->
             exists fr post,
               tail = EvFetch (url ++ "&key=" ++ API_KEY) fr :: post
       | Failed e =>
           tail = [] /\ result (generateVideo fuel params w) = Failed e
       | Pending =>
           tail = [] /\ result (generateVideo fuel params w) = Pending /\
           exists rounds,
             polls = concat (poll_round <$> rounds) /\ length rounds = fuel
       end) /\
  (forall pre url fr post,
     trace (generateVideo fuel params w) = pre ++ EvFetch url fr :: post ->
     exists payload op0 polls opf,
       buildPayload params = Resolved payload /\
       pre = EvGenerateVideos payload (Resolved op0) :: polls /\
       Polling op0 polls (Fulfilled opf) /\
       op_done opf = true /\
       Forall (fun e => is_after_fetch e = true) post).
Proof.
  split; [|split].
  - intros payload Hp.
    destruct (generateVideo_cases fuel params w) as
      [(e & Hp' & _)|[(payload' & e & o & Hp' & Hs & _ & Ht & _)|
       (payload' & op0 & o & Hp' & Hs & Hrun)]]; [congruence| |];
      assert (payload' = payload) as -> by congruence; rewrite Hs; simpl.
    + by exists [].
    + simpl in Hrun.
      set (p := pollLoop fuel op0 {| outside := o; objectURLs := objectURLs w |}) in *.
      pose proof (Polling_no_submit _ _ _ (pollLoop_Polling fuel op0
                    {| outside := o; objectURLs := objectURLs w |})) as Hpolls.
      fold p in Hpolls.
      destruct (result p) as [opf|e|]; destruct Hrun as (_ & _ & Ht);
        eexists; (split; [exact Ht|]); [|done..].
      apply Forall_app. split; [done|]. apply no_job_no_submit, deliver_no_job.
  - intros payload op0 o Hp Hs.
    destruct (generateVideo_cases fuel params w) as
      [(e & Hp' & _)|[(payload' & e & o' & Hp' & Hs' & _)|
       (payload' & op0' & o' & Hp' & Hs' & Hrun)]]; [congruence| |];
      assert (payload' = payload) as -> by congruence; [congruence|].
    assert (op0' = op0 /\ o' = o) as [-> ->] by (split; congruence).
    simpl in Hrun.
    set (w1 := {| outside := o; objectURLs := objectURLs w |}) in *.
    pose proof (pollLoop_Polling fuel op0 w1) as HP.
    pose proof (pollLoop_pending fuel op0 w1) as Hpend.
    destruct (result (pollLoop fuel op0 w1)) as [opf|e|] eqn:Hrp.
    + destruct Hrun as (_ & _ & Ht).
      exists (trace (pollLoop fuel op0 w1)), (Fulfilled opf),
        (trace (deliver opf (world (pollLoop fuel op0 w1)))).
      split; [done|]. split; [done|]. split; [apply deliver_no_job|].
      split; [eapply Polling_fulfilled, HP|].
      intros response firstVideo others videoObject url Hresp Hvids Hvideo Hdec.
      destruct (deliver_fetches opf (world (pollLoop fuel op0 w1))
                  _ _ _ _ _ Hresp Hvids Hvideo Hdec) as [post Hd].
      by eexists _, post.
    + destruct Hrun as (Hres & _ & Ht).
      exists (trace (pollLoop fuel op0 w1)), (Failed e), [].
      by rewrite app_nil_r.
    + destruct Hrun as (Hres & _ & Ht).
      destruct (Hpend eq_refl) as (_ & rounds & Hrounds & Hlen & _).
      exists (trace (pollLoop fuel op0 w1)), Pending, [].
      rewrite app_nil_r. repeat split; try done. by exists rounds.
  - destruct (generateVideo_shape fuel params w) as
      [(e & _ & Ht & _)|(payload & [op0|e] & Hp & Hshape)].
    + intros pre url fr post Htrace. rewrite Ht in Htrace. by destruct pre.
    + destruct Hshape as (polls & rp & tail & Ht & HP & Htail).
      assert (Hjob : Forall (fun e => is_fetch e = false)
                       (EvGenerateVideos payload (Resolved op0) :: polls)).
      { apply job_events_no_fetch. constructor; [done|].
        eapply Polling_job_events, HP. }
      intros pre url fr post Htrace. rewrite Ht in Htrace.
      destruct rp as [opf|e|].
      * destruct Htail as [->|(url' & fr' & rest & -> & Hrest)].
        -- rewrite app_nil_r in Htrace. by eapply no_fetch_in in Hjob.
        -- rewrite app_comm_cons in Htrace.
           apply (split_at_unique is_fetch) in Htrace as (<- & _ & <-);
             [|done|done|by apply after_fetch_no_fetch|done].
           exists payload, op0, polls, opf.
           repeat split; try done. eapply Polling_fulfilled, HP.
      * destruct Htail as [-> _]. rewrite app_nil_r in Htrace.
        by eapply no_fetch_in in Hjob.
      * destruct Htail as [-> _]. rewrite app_nil_r in Htrace.
        by eapply no_fetch_in in Hjob.
    + destruct Hshape as [Ht _].
      intros pre url fr post Htrace. rewrite Ht in Htrace.
      destruct pre as [|? [|? ?]]; discriminate.
Qed.

(** C2.  A run of [generateVideo] that reaches the service consists of the
    submission, then rounds of exactly one wait of [POLL_DELAY] (10000 ms)
    followed by one status request, then events that are neither waits nor
    requests of the job: the wait before every status request is the same
    constant. *)
Theorem generateVideo_fixed_delay fuel params w :
  trace (generateVideo fuel params w) = [] \/
  exists payload r0 rounds tail,
    trace (generateVideo fuel params w) =
      EvGenerateVideos payload r0 :: concat (poll_round <$> rounds) ++ tail /\
    Forall (fun e => is_job_event e = false) tail.
Proof.
  destruct (generateVideo_shape fuel params w) as
    [(e & _ & Ht & _)|(payload & [op0|e] & Hp & Hshape)]; [by left| |].
  - right. destruct Hshape as (polls & rp & tail & Ht & HP & Htail).
    destruct (Polling_rounds _ _ _ HP) as [rounds ->].
    exists payload, (Resolved op0), rounds, tail. split; [done|].
    destruct rp as [opf|e|].
    + destruct Htail as [->|(url & fr & rest & -> & Hrest)]; [done|].
      constructor; [done|]. by apply after_fetch_no_job.
    + by destruct Htail as [-> _].
    + by destruct Htail as [-> _].
  - right. destruct Hshape as [Ht _].
    exists payload, (Rejected e), [], []. by rewrite Ht.
Qed.

(** C10.  In [EXTEND_VIDEO] mode without an input video object,
    [generateVideo] throws its error with nothing having left the program
    and the world as it was. *)
Theorem generateVideo_extend_requires_input fuel params w :
  Params.mode params = EXTEND_VIDEO ->
  Params.inputVideoObject params = None ->
  result (generateVideo fuel params w) =
    Failed (new_Error "An input video object is required to extend a video.") /\
  trace (generateVideo fuel params w) = [] /\
  world (generateVideo fuel params w) = w.
Proof.
  intros Hmode Hinput. unfold generateVideo. run_bind.
  unfold buildPayload. rewrite Hmode, Hinput. done.
Qed.

(** [params] with another end frame. *)
Definition with_endFrame (ef : option ImageFile) (params : GenerateVideoParams)
  : GenerateVideoParams :=
  {| Params.prompt := Params.prompt params;
     Params.model := Params.model params;
     Params.aspectRatio := Params.aspectRatio params;
     Params.resolution := Params.resolution params;
     Params.mode := Params.mode params;
     Params.startFrame := Params.startFrame params;
     Params.endFrame := ef;
     Params.referenceImages := Params.referenceImages params;
     Params.inputVideoObject := Params.inputVideoObject params;
     Params.isLooping := Params.isLooping params |}.

(** C9.  In [FRAMES_TO_VIDEO] mode with [isLooping] true and a start frame,
    the request that [generateVideo] submits first carries as [lastFrame] the
    bytes and type of the start frame, and it is the same request whatever
    the end frame is. *)
Theorem generateVideo_looping_lastFrame fuel params w startFrame :
  Params.mode params = FRAMES_TO_VIDEO ->
  Params.isLooping params = Some true ->
  Params.startFrame params = Some startFrame ->
  exists payload r0 rest,
    trace (generateVideo fuel params w) = EvGenerateVideos payload r0 :: rest /\
    Config.lastFrame (Payload.config payload) =
      Some {| imageBytes := base64 startFrame;
              mimeType := if str_truthy (file_type startFrame)
                          then file_type startFrame else "image/png" |} /\
    forall endFrame, buildPayload (with_endFrame endFrame params) = Resolved payload.
Proof.
  intros Hmode Hloop Hstart.
  assert (Hbuild : forall endFrame,
             buildPayload (with_endFrame endFrame params) = buildPayload params).
  { intros endFrame. unfold buildPayload, buildConfig, finalEndFrame; simpl.
    by rewrite Hmode, Hloop. }
  destruct (generateVideo_shape fuel params w) as
    [(e & Hp & _)|(payload & r0 & Hp & Hshape)].
  { unfold buildPayload in Hp. by rewrite Hmode in Hp. }
  assert (Hlast : Config.lastFrame (Payload.config payload) = Some (imagePayload startFrame)).
  { unfold buildPayload in Hp. rewrite Hmode in Hp. inversion Hp; subst; simpl.
    unfold finalEndFrame. by rewrite Hmode, Hloop, Hstart. }
  assert (Hall : forall endFrame, buildPayload (with_endFrame endFrame params) = Resolved payload).
  { intros endFrame. by rewrite Hbuild. }
  destruct r0 as [op0|e].
  - destruct Hshape as (polls & rp & tail & Ht & _). by eexists _, _, _.
  - destruct Hshape as [Ht _]. by eexists _, _, _.
Qed.

Lemma makeScene_fresh index scene s :
  makeScene index scene = Some s ->
  Scene.id s = ("scene-" ++ pretty index)%string /\ Scene.status s = status_idle /\
  Scene.videoUrl s = None /\ Scene.videoObject s = None.
Proof.
  unfold makeScene.
  destruct (getField "title" scene), (getField "prompt" scene); intros [= <-]; done.
Qed.

Lemma mapScenes_lookup items : forall index scenes i s,
  mapScenes index items = Some scenes ->
  scenes !! i = Some s ->
  exists scene, items !! i = Some scene /\ makeScene (index + i) scene = Some s.
Proof.
  induction items as [|scene rest IH]; intros index scenes i s Hmap Hi; simpl in Hmap.
  - by inversion Hmap; subst.
  - destruct (makeScene index scene) as [s0|] eqn:H0; [|done]. simpl in Hmap.
    destruct (mapScenes (S index) rest) as [ss|] eqn:Hrest; [|done]. simpl in Hmap.
    inversion Hmap; subst. destruct i as [|i]; simpl in Hi.
    + inversion Hi; subst. exists scene. by rewrite Nat.add_0_r.
    + destruct (IH _ _ _ _ Hrest Hi) as (sc & Hsc & Hmk).
      exists sc. split; [done|]. by rewrite <- Nat.add_succ_comm.
Qed.

Lemma mapScenes_length items : forall index scenes,
  mapScenes index items = Some scenes -> length scenes = length items.
Proof.
  induction items as [|scene rest IH]; intros index scenes Hmap; simpl in Hmap.
  - by inversion Hmap.
  - destruct (makeScene index scene); [|done]. simpl in Hmap.
    destruct (mapScenes (S index) rest) eqn:Hrest; [|done].
    inversion Hmap; subst; simpl. f_equal. eauto.
Qed.

(** What a run of [parseScript] can be: the answer of the service is the
    only event unless the [catch] logs, and the result is decided by the
    body of the [try]. *)
Lemma parseScript_cases script w :
  let r := parseScript script w in
  match ai_generateContent (script_request script) (outside w) with
  | (Rejected e, _) => result r = Failed e
  | (Resolved response, _) =>
      match parseScript_try (GenerateContent.text response) with
      | Some scenes => result r = Fulfilled scenes
      | None => result r = Failed parse_error
      end
  end.
Proof.
  unfold parseScript. run_bind. unfold call.
  destruct (ai_generateContent _ _) as [[response|e] o]; simpl; [|done].
  by destruct (parseScript_try _).
Qed.

(** C8.  Every scene that [parseScript] returns is idle, without video URL
    and video object, and is named [scene-] followed by its index in the
    returned array, in decimal. *)
Theorem parseScript_scenes_fresh script w scenes i s :
  result (parseScript script w) = Fulfilled scenes ->
  scenes !! i = Some s ->
  Scene.id s = ("scene-" ++ pretty i)%string /\
  Scene.status s = status_idle /\
  Scene.videoUrl s = None /\
  Scene.videoObject s = None.
Proof.
  intros Hres Hi. pose proof (parseScript_cases script w) as Hc. simpl in Hc.
  destruct (ai_generateContent _ _) as [[response|e] o]; [|congruence].
  destruct (parseScript_try _) as [scenes'|] eqn:Htry; [|congruence].
  assert (scenes' = scenes) as -> by congruence.
  unfold parseScript_try in Htry.
  destruct (GenerateContent.text response ≫= JSON_parse) as [rawData|]; [|done].
  simpl in Htry. destruct rawData as [| | | |items|]; try done. simpl in Htry.
  destruct (mapScenes_lookup _ _ _ _ _ Htry Hi) as (scene & _ & Hmk).
  by apply makeScene_fresh in Hmk.
Qed.

(** ** Properties of the components *)

Lemma update_scene_lookup index f (prev : list StoryboardScene) j :
  update_scene index f prev !! j =
    (fun s => if decide (j = index) then f s else s) <$> prev !! j.
Proof. unfold update_scene. by rewrite list_lookup_imap. Qed.

Lemma update_scene_other index f (prev : list StoryboardScene) j :
  j <> index -> update_scene index f prev !! j = prev !! j.
Proof.
  intros Hne. rewrite update_scene_lookup.
  destruct (prev !! j); simpl; [|done]. by rewrite decide_False.
Qed.

Lemma update_scene_self index f (prev : list StoryboardScene) :
  update_scene index f prev !! index = f <$> prev !! index.
Proof.
  rewrite update_scene_lookup.
  destruct (prev !! index); simpl; [|done]. by rewrite decide_True.
Qed.

Lemma update_scene_length index f (prev : list StoryboardScene) :
  length (update_scene index f prev) = length prev.
Proof. unfold update_scene. by rewrite length_imap. Qed.

Lemma scene_has_lookup st index pg :
  scene_has st index pg = true ->
  exists d scene, director pg = Some d /\ Director.scenes d !! index = Some scene /\
                  Scene.status scene = st.
Proof.
  unfold scene_has. destruct (director pg) as [d|]; simpl; [|done].
  destruct (Director.scenes d !! index) as [scene|] eqn:Hscene; [|done].
  intros H%bool_decide_eq_true. by exists d, scene.
Qed.

(** A scene whose generation is in flight is shown as generating. *)
Definition inflight_ok (d : Director.t) : Prop :=
  forall i, i ∈ Director.inflight d ->
    exists scene, Director.scenes d !! i = Some scene /\
                  Scene.status scene = status_generating.

(** What holds of every page of a session: the form is there exactly in
    [IDLE] and the storyboard exactly in [DIRECTOR_READY]; a [handleGenerate]
    is waiting exactly in [LOADING], a script analysis exactly while the form
    says so; [lastConfig] is set once a generation has started. *)
Record Inv (pg : Page) : Prop := {
  inv_form : is_Some (form pg) <-> App.appState (app pg) = IDLE;
  inv_director : is_Some (director pg) <-> App.appState (app pg) = DIRECTOR_READY;
  inv_generate :
    pendingGenerate pg = if decide (App.appState (app pg) = LOADING) then 1 else 0;
  inv_parse :
    pendingParse pg =
      match form pg with
      | Some s => if Form.isAnalyzing s then 1 else 0
      | None => 0
      end;
  inv_config :
    App.appState (app pg) = LOADING \/ App.appState (app pg) = SUCCESS ->
    is_Some (App.lastConfig (app pg));
  inv_inflight : forall d, director pg = Some d -> inflight_ok d
}.

Lemma Inv_initial : Inv initial.
Proof.
  split; try (vm_compute; done).
  - split; [done|by eexists].
  - split; [by intros [? ?]|done].
  - by intros [?|?].
Qed.

Lemma Inv_render a f d g p :
  g = (if decide (App.appState a = LOADING) then 1 else 0) ->
  p = (if decide (App.appState a = IDLE)
       then match f with Some s => if Form.isAnalyzing s then 1 else 0 | None => 0 end
       else 0) ->
  (App.appState a = LOADING \/ App.appState a = SUCCESS -> is_Some (App.lastConfig a)) ->
  (forall d0, d = Some d0 -> inflight_ok d0) ->
  Inv (render a f d g p).
Proof.
  intros -> -> Hc Hd. split; simpl; try done.
  - case_decide; (split; [by intros [? ?] || done | done || by eexists]).
  - case_decide; (split; [by intros [? ?] || done | done || by eexists]).
  - case_decide; [by destruct f|done].
  - intros d0. case_decide; [|done].
    destruct d as [d1|]; simpl; intros [= <-]; [eauto|].
    intros i. simpl. by intros ?%elem_of_nil.
Qed.

Lemma inflight_ok_begin a index d scene :
  Director.scenes d !! index = Some scene ->
  inflight_ok d -> inflight_ok (handleGenerateScene_begin a index d).1.
Proof.
  intros Hscene Hok i. unfold handleGenerateScene_begin. rewrite Hscene. simpl.
  destruct (decide (i = index)) as [->|Hne].
  - intros _. rewrite update_scene_self, Hscene. by eexists.
  - rewrite elem_of_cons. intros [?|Hin]; [done|].
    rewrite update_scene_other by done. by apply Hok.
Qed.

Lemma inflight_ok_settle index r d :
  inflight_ok d -> inflight_ok (handleGenerateScene_settle index r d).1.
Proof.
  intros Hok i. destruct r as [result|e]; simpl;
    rewrite list_elem_of_filter; intros [Hne Hin];
    rewrite update_scene_other by done; by apply Hok.
Qed.

Lemma Inv_in_director pg k pg' effs :
  Inv pg -> in_director pg k = Some (pg', effs) ->
  (forall d, director pg = Some d -> inflight_ok (k d).1) ->
  Inv pg'.
Proof.
  intros [Hf Hd Hg Hp Hc Hi] Hstep Hk. unfold in_director in Hstep.
  destruct (director pg) as [d|] eqn:Hdir; simpl in Hstep; [|done].
  specialize (Hk d eq_refl). destruct (k d) as [d' effs'].
  inversion Hstep; subst; clear Hstep. split; simpl; try done.
  - rewrite <- Hd. split; by eexists.
  - by intros ? [= <-].
Qed.

Ltac inv_close :=
  simpl in *; repeat case_decide; simplify_eq; try congruence; try lia; eauto;
  try (intros [?|?]; congruence).

Lemma step_Inv pg act pg' effs :
  Inv pg -> step pg act = Some (pg', effs) -> Inv pg'.
Proof.
  intros HInv Hstep. pose proof HInv as [Hf Hd Hg Hp Hc Hi].
  assert (Hnoform : App.appState (app pg) <> IDLE -> form pg = None).
  { intros Hne. destruct (form pg) eqn:?; [|done]. destruct Hne. apply Hf. eauto. }
  destruct act as [f|r|r| | | | | |index|index|index r]; simpl in Hstep.
  - destruct (form pg) as [s|] eqn:Hform; simpl in Hstep; [|done].
    destruct (submit_disabled f s) eqn:Hdis; [done|].
    apply orb_false_iff in Hdis as [_ Han].
    assert (App.appState (app pg) = IDLE) as Hidle by (apply Hf; eauto).
    rewrite Han in Hp. rewrite Hidle, decide_False in Hg by done.
    destruct (decide (Form.generationMode f = DIRECTOR)).
    + inversion Hstep; subst; clear Hstep. split; simpl; try done; rewrite ?Hg, ?Hp, ?Hidle; inv_close.
    + inversion Hstep; subst; clear Hstep. apply Inv_render; inv_close.
  - destruct (pendingParse pg) as [|p] eqn:Hpp; [done|].
    destruct (form pg) as [s|] eqn:Hform; [|done].
    destruct (Form.isAnalyzing s) eqn:Han; [|done].
    assert (App.appState (app pg) = IDLE) as Hidle by (apply Hf; eauto).
    rewrite Hidle, decide_False in Hg by done.
    destruct r as [scenes|e]; inversion Hstep; subst; clear Hstep;
      apply Inv_render; inv_close.
  - destruct (pendingGenerate pg) as [|g] eqn:Hpg; [done|].
    destruct (decide (App.appState (app pg) = LOADING)) as [Hl|Hl]; [|done].
    unfold newVideo, generate in Hstep. rewrite Hnoform in * by congruence.
    destruct r as [res|e]; inversion Hstep; subst; clear Hstep;
      apply Inv_render; inv_close.
  - destruct (App.appState (app pg)) eqn:Hst; try done.
    destruct (App.videoUrl (app pg)) as [url|]; [|done].
    destruct (App.lastConfig (app pg)) as [params|] eqn:Hcfg; [|done].
    destruct (str_truthy url); [|done].
    unfold newVideo, generate in Hstep. rewrite Hnoform in * by congruence.
    inversion Hstep; subst; clear Hstep. apply Inv_render; inv_close.
  - destruct (App.appState (app pg)) eqn:Hst; try done.
    destruct (App.videoUrl (app pg)) as [url|]; [|done].
    destruct (str_truthy url); [|done].
    unfold newVideo, generate in Hstep. rewrite Hnoform in * by congruence.
    inversion Hstep; subst; clear Hstep. apply Inv_render; inv_close.
  - destruct (App.appState (app pg)) eqn:Hst; try done.
    destruct (App.videoUrl (app pg)) as [url|]; [|done].
    destruct (str_truthy url); [|done]. by inversion Hstep; subst.
  - destruct (decide (App.appState (app pg) = ERROR)) as [Hst|]; [|done].
    unfold newVideo, generate in Hstep. rewrite Hnoform in * by congruence.
    inversion Hstep; subst; clear Hstep. apply Inv_render; inv_close.
  - destruct (decide (App.appState (app pg) = DIRECTOR_READY)) as [Hst|]; [|done].
    unfold newVideo, generate in Hstep. rewrite Hnoform in * by congruence.
    inversion Hstep; subst; clear Hstep. apply Inv_render; inv_close.
  - destruct (scene_has status_idle index pg) eqn:Hhas; [|done].
    apply scene_has_lookup in Hhas as (d & scene & Hdir & Hscene & _).
    apply (Inv_in_director _ _ _ _ HInv Hstep).
    intros d0 Hd0. assert (d0 = d) as -> by congruence.
    apply (inflight_ok_begin _ _ _ scene); [done|]. by apply (inv_inflight _ HInv).
  - destruct (scene_has status_error index pg) eqn:Hhas; [|done].
    apply scene_has_lookup in Hhas as (d & scene & Hdir & Hscene & _).
    apply (Inv_in_director _ _ _ _ HInv Hstep).
    intros d0 Hd0. assert (d0 = d) as -> by congruence.
    apply (inflight_ok_begin _ _ _ scene); [done|]. by apply (inv_inflight _ HInv).
  - destruct (director pg) as [d|] eqn:Hdir; simpl in Hstep; [|done].
    destruct (bool_decide (index ∈ Director.inflight d)); [|done].
    apply (Inv_in_director _ _ _ _ HInv Hstep).
    intros d0 Hd0. apply inflight_ok_settle. by apply (inv_inflight _ HInv).
Qed.

Lemma reachable_Inv pg : reachable pg -> Inv pg.
Proof.
  induction 1 as [|pg act pg' effs _ IH Hstep]; [apply Inv_initial|].
  by eapply step_Inv.
Qed.

(** The non-null assertion of [lastConfig!] in [onRetry] is safe. *)
Lemma success_has_config pg :
  reachable pg -> App.appState (app pg) = SUCCESS ->
  is_Some (App.lastConfig (app pg)).
Proof. intros HInv%reachable_Inv Hst. apply (inv_config _ HInv). by right. Qed.

(** At most one [handleGenerate] is waiting, and only in [LOADING]. *)
Lemma single_flight pg :
  reachable pg -> pendingGenerate pg <= 1 /\
  (pendingGenerate pg = 1 <-> App.appState (app pg) = LOADING).
Proof.
  intros HInv%reachable_Inv. rewrite (inv_generate _ HInv).
  case_decide; split; try lia; split; try done; lia.
Qed.

(** C3.  Whatever [generateVideo] throws, [handleGenerate] ends in the
    [ERROR] state with exactly one message, the error's own or
    [Unknown error]; when the text of the script analysis does not parse,
    [parseScript] throws the one error [Could not interpret the script. Please
    try a different description.]; and a rejected [parseScript] reaches the
    user as one alert, the page staying as it was. *)
Theorem errors_become_one_message :
  (forall fuel params a w e,
     result (generateVideo fuel params w) = Failed e ->
     App.appState (handleGenerate fuel params a w).1 = ERROR /\
     App.errorMessage (handleGenerate fuel params a w).1 =
       Some (match e with ErrorObj _ message => message | NonError => "Unknown error" end)) /\
  (forall script w response o,
     ai_generateContent (script_request script) (outside w) = (Resolved response, o) ->
     GenerateContent.text response ≫= JSON_parse = None ->
     result (parseScript script w) =
       Failed (new_Error
         "Could not interpret the script. Please try a different description.")) /\
  (forall pg e pg' effs,
     step pg (ParseSettled (Rejected e)) = Some (pg', effs) ->
     effs = [EffConsoleError; EffAlert "Analysis failed. Try simplifying the script."] /\
     app pg' = app pg).
Proof.
  split; [|split].
  - intros fuel params a w e Hres. unfold handleGenerate. simpl.
    rewrite Hres. simpl. by destruct e.
  - intros script w response o Hcall Htext.
    pose proof (parseScript_cases script w) as Hc. simpl in Hc.
    rewrite Hcall in Hc. unfold parseScript_try in Hc. by rewrite Htext in Hc.
  - intros pg e pg' effs Hstep. simpl in Hstep.
    destruct (pendingParse pg); [done|]. by inversion Hstep.
Qed.

(** C6.  A [Produce Scene] action on scene [index] lets out exactly one
    [generateVideo] call, with that scene's prompt, and changes no other
    scene; when that call settles, the update changes no other scene either,
    lets out no call, and leaves the scene done with the URL and the video
    object of the result, or in error. *)
Theorem produce_scene_one_call_one_scene index :
  (forall pg pg' effs,
     step pg (ProduceScene index) = Some (pg', effs) ->
     exists d scene d',
       director pg = Some d /\ Director.scenes d !! index = Some scene /\
       director pg' = Some d' /\ app pg' = app pg /\
       effs = [EffGenerateVideo (ByScene index)
                 (scene_params (app pg) (Scene.prompt scene))] /\
       Params.prompt (scene_params (app pg) (Scene.prompt scene)) = Scene.prompt scene /\
       length (Director.scenes d') = length (Director.scenes d) /\
       forall j, j <> index -> Director.scenes d' !! j = Director.scenes d !! j) /\
  (forall pg r pg' effs,
     reachable pg ->
     step pg (SceneSettled index r) = Some (pg', effs) ->
     exists d scene d' scene',
       director pg = Some d /\ Director.scenes d !! index = Some scene /\
       director pg' = Some d' /\ Director.scenes d' !! index = Some scene' /\
       app pg' = app pg /\
       Forall (fun e => is_call e = false) effs /\
       length (Director.scenes d') = length (Director.scenes d) /\
       (forall j, j <> index -> Director.scenes d' !! j = Director.scenes d !! j) /\
       Scene.id scene' = Scene.id scene /\ Scene.title scene' = Scene.title scene /\
       Scene.prompt scene' = Scene.prompt scene /\
       match r with
       | Resolved result =>
           Scene.status scene' = status_done /\
           Scene.videoUrl scene' = Some (VideoResult.objectUrl result) /\
           Scene.videoObject scene' = Some (VideoResult.video result)
       | Rejected _ =>
           Scene.status scene' = status_error /\
           Scene.videoUrl scene' = Scene.videoUrl scene /\
           Scene.videoObject scene' = Scene.videoObject scene
       end).
Proof.
  split.
  - intros pg pg' effs Hstep. simpl in Hstep.
    destruct (scene_has status_idle index pg) eqn:Hhas; [|done].
    apply scene_has_lookup in Hhas as (d & scene & Hdir & Hscene & _).
    unfold in_director in Hstep. rewrite Hdir in Hstep. simpl in Hstep.
    unfold handleGenerateScene_begin in Hstep. rewrite Hscene in Hstep.
    inversion Hstep; subst; clear Hstep. simpl.
    eexists d, scene, _. repeat split; try done.
    + apply update_scene_length.
    + intros j Hj. by apply update_scene_other.
  - intros pg r pg' effs Hreach Hstep. simpl in Hstep.
    destruct (director pg) as [d|] eqn:Hdir; simpl in Hstep; [|done].
    destruct (bool_decide (index ∈ Director.inflight d)) eqn:Hin; [|done].
    apply bool_decide_eq_true in Hin.
    destruct (inv_inflight _ (reachable_Inv _ Hreach) d Hdir index Hin)
      as (scene & Hscene & _).
    unfold in_director in Hstep. rewrite Hdir in Hstep. simpl in Hstep.
    destruct r as [result|e]; simpl in Hstep; inversion Hstep; subst; clear Hstep; simpl.
    1: eexists d, scene, _, (set_done result scene); simpl.
    2: eexists d, scene, _, (set_status status_error scene); simpl.
    all: repeat split; simpl; try done;
      try apply update_scene_length;
      try (by rewrite update_scene_self, Hscene);
      try (intros j Hj; by apply update_scene_other);
      try (by repeat constructor).
Qed.

(** The state of the view in which an action is on offer. *)
Definition offered_in (act : Action) : AppState :=
  match act with
  | Submit _ | ParseSettled _ => IDLE
  | GenerateSettled _ => LOADING
  | Retry | NewVideo | Extend => SUCCESS
  | TryAgain => ERROR
  | NewProject | ProduceScene _ | RetryScene _ | SceneSettled _ _ => DIRECTOR_READY
  end.

(** The state of the view after an action taken in state [s]. *)
Definition next_state (act : Action) (s : AppState) : AppState :=
  match act with
  | Submit f => if decide (Form.generationMode f = DIRECTOR) then s else LOADING
  | ParseSettled (Resolved _) => DIRECTOR_READY
  | GenerateSettled (Resolved _) => SUCCESS
  | GenerateSettled (Rejected _) => ERROR
  | Retry => LOADING
  | NewVideo | TryAgain | NewProject => IDLE
  | ParseSettled (Rejected _) | Extend | ProduceScene _ | RetryScene _
  | SceneSettled _ _ => s
  end.

(** The edges of the view state machine, with the action that takes each. *)
Definition transition (s : AppState) (act : Action) (s' : AppState) : Prop :=
  match s, s' with
  | IDLE, LOADING => exists f, act = Submit f /\ Form.generationMode f <> DIRECTOR
  | SUCCESS, LOADING => act = Retry
  | LOADING, SUCCESS => exists res, act = GenerateSettled (Resolved res)
  | LOADING, ERROR => exists e, act = GenerateSettled (Rejected e)
  | IDLE, DIRECTOR_READY => exists scenes, act = ParseSettled (Resolved scenes)
  | SUCCESS, IDLE => act = NewVideo
  | ERROR, IDLE => act = TryAgain
  | DIRECTOR_READY, IDLE => act = NewProject
  | _, _ => False
  end.

Lemma in_director_app pg k pg' effs :
  in_director pg k = Some (pg', effs) ->
  app pg' = app pg /\ is_Some (director pg).
Proof.
  unfold in_director. destruct (director pg) as [d|]; simpl; [|done].
  destruct (k d). intros [= <- <-]. eauto.
Qed.

Lemma step_offered pg act pg' effs :
  reachable pg -> step pg act = Some (pg', effs) ->
  App.appState (app pg) = offered_in act.
Proof.
  intros [Hf Hd Hg Hp Hc Hi]%reachable_Inv Hstep.
  destruct act as [f|r|r| | | | | |index|index|index r]; simpl in *.
  - destruct (form pg) eqn:?; [|done]. apply Hf; eauto.
  - destruct (pendingParse pg); [done|].
    destruct (form pg) eqn:?; [|done]. apply Hf; eauto.
  - destruct (pendingGenerate pg); [done|]. by case_decide.
  - by destruct (App.appState (app pg)).
  - by destruct (App.appState (app pg)).
  - by destruct (App.appState (app pg)).
  - by case_decide.
  - by case_decide.
  - destruct (scene_has _ _ _); [|done].
    apply in_director_app in Hstep as [_ ?]. by apply Hd.
  - destruct (scene_has _ _ _); [|done].
    apply in_director_app in Hstep as [_ ?]. by apply Hd.
  - destruct (director pg) eqn:?; [|done]. apply Hd; eauto.
Qed.

Ltac step_inv :=
  unfold generate, newVideo in *; simpl in *; simplify_eq; simpl; try done.

Lemma step_next_state pg act pg' effs :
  step pg act = Some (pg', effs) ->
  App.appState (app pg') = next_state act (App.appState (app pg)).
Proof.
  intros Hstep.
  destruct act as [f|r|r| | | | | |index|index|index r]; simpl in *.
  - destruct (form pg); simpl in Hstep; [|done].
    destruct (submit_disabled _ _); [done|].
    destruct (decide (Form.generationMode f = DIRECTOR)); step_inv.
  - destruct (pendingParse pg); [done|]. destruct r; step_inv.
  - destruct (pendingGenerate pg); [done|]. destruct r; step_inv.
  - destruct (App.appState (app pg)), (App.videoUrl (app pg)) as [url|],
      (App.lastConfig (app pg)); try done.
    destruct (str_truthy url); step_inv.
  - destruct (App.appState (app pg)), (App.videoUrl (app pg)) as [url|]; try done.
    destruct (str_truthy url); step_inv.
  - destruct (App.appState (app pg)) eqn:Hst, (App.videoUrl (app pg)) as [url|];
      try done.
    destruct (str_truthy url); step_inv.
  - case_decide; step_inv.
  - case_decide; step_inv.
  - destruct (scene_has _ _ _); [|done].
    apply in_director_app in Hstep as [Happ _]. by rewrite Happ.
  - destruct (scene_has _ _ _); [|done].
    apply in_director_app in Hstep as [Happ _]. by rewrite Happ.
  - destruct (director pg); simpl in Hstep; [|done].
    destruct (bool_decide _); [|done].
    apply in_director_app in Hstep as [Happ _]. by rewrite Happ.
Qed.

(** C5 (as amended).  In every session, a change of the view state is one of
    the edges of [transition]: [LOADING] is entered only by a generate
    submission (the form in [IDLE], or Retry in [SUCCESS]); [SUCCESS] and
    [ERROR] only from [LOADING], as the fulfilment and the rejection of
    [generateVideo]; [DIRECTOR_READY] only on a fulfilled script parse; from
    [ERROR] and [DIRECTOR_READY] the only way on is to [IDLE], by Try Again
    and New Project; from [SUCCESS] it is to [IDLE] by New Video or to
    [LOADING] by Retry. *)
Theorem view_state_machine pg act pg' effs :
  reachable pg ->
  step pg act = Some (pg', effs) ->
  App.appState (app pg') <> App.appState (app pg) ->
  transition (App.appState (app pg)) act (App.appState (app pg')).
Proof.
  intros Hreach Hstep.
  rewrite (step_next_state _ _ _ _ Hstep), (step_offered _ _ _ _ Hreach Hstep).
  destruct act as [f|[scenes|e]|[res|e]| | | | | |index|index|index r]; simpl;
    try done; eauto.
  case_decide; [done|]. eauto.
Qed.

(** C4.  A submission lets out exactly one [generateVideo] call, and its
    rejection lets out none and leaves the view in [ERROR]; in [ERROR]
    nothing is on offer but Try Again, which goes to [IDLE] without a call.
    In the storyboard a scene in error stays as it is under every action
    but its own Retry, which lets out exactly one call, for that scene (and
    New Project, which takes the storyboard away). *)
Theorem no_automatic_retry :
  (forall pg f pg' effs,
     step pg (Submit f) = Some (pg', effs) ->
     Form.generationMode f <> DIRECTOR ->
     effs = [EffGenerateVideo ByApp (params_of f)]) /\
  (forall pg e pg' effs,
     step pg (GenerateSettled (Rejected e)) = Some (pg', effs) ->
     App.appState (app pg') = ERROR /\ effs = []) /\
  (forall pg act pg' effs,
     reachable pg ->
     App.appState (app pg) = ERROR ->
     step pg act = Some (pg', effs) ->
     act = TryAgain /\ App.appState (app pg') = IDLE /\ effs = []) /\
  (forall pg act pg' effs d index scene,
     reachable pg ->
     director pg = Some d ->
     Director.scenes d !! index = Some scene ->
     Scene.status scene = status_error ->
     step pg act = Some (pg', effs) ->
     (act = RetryScene index /\
      effs = [EffGenerateVideo (ByScene index)
                (scene_params (app pg) (Scene.prompt scene))]) \/
     (act = NewProject /\ director pg' = None /\ effs = []) \/
     (exists d', director pg' = Some d' /\
                 Director.scenes d' !! index = Some scene /\
                 Forall (fun e => forall params,
                           e <> EffGenerateVideo (ByScene index) params) effs)).
Proof.
  split; [|split; [|split]].
  - intros pg f pg' effs Hstep Hmode. simpl in Hstep.
    destruct (form pg); simpl in Hstep; [|done].
    destruct (submit_disabled _ _); [done|].
    rewrite decide_False in Hstep by done. by step_inv.
  - intros pg e pg' effs Hstep. simpl in Hstep.
    destruct (pendingGenerate pg); [done|]. by step_inv.
  - intros pg act pg' effs Hreach Herr Hstep.
    pose proof (step_offered _ _ _ _ Hreach Hstep) as Hoff. rewrite Herr in Hoff.
    destruct act; try discriminate. simpl in Hstep.
    rewrite decide_True in Hstep by done. by step_inv.
  - intros pg act pg' effs d index scene Hreach Hdir Hscene Herr Hstep.
    pose proof (reachable_Inv _ Hreach) as HInv.
    assert (Hdr : App.appState (app pg) = DIRECTOR_READY).
    { apply (inv_director _ HInv). rewrite Hdir. eauto. }
    pose proof (step_offered _ _ _ _ Hreach Hstep) as Hoff. rewrite Hdr in Hoff.
    destruct act as [| | | | | | | |j|j|j r]; try discriminate; simpl in Hstep.
    + right; left. rewrite decide_True in Hstep by done. by step_inv.
    + right; right. destruct (scene_has status_idle j pg) eqn:Hhas; [|done].
      apply scene_has_lookup in Hhas as (d0 & sc & Hd0 & Hsc & Hst).
      assert (d0 = d) as -> by congruence.
      assert (j <> index) by (intros ->; congruence).
      unfold in_director in Hstep. rewrite Hdir in Hstep. simpl in Hstep.
      unfold handleGenerateScene_begin in Hstep. rewrite Hsc in Hstep.
      step_inv. eexists; split; [done|]. simpl. split.
      * by rewrite update_scene_other.
      * repeat constructor. intros params [= ?]. done.
    + destruct (scene_has status_error j pg) eqn:Hhas; [|done].
      apply scene_has_lookup in Hhas as (d0 & sc & Hd0 & Hsc & Hst).
      assert (d0 = d) as -> by congruence.
      unfold in_director in Hstep. rewrite Hdir in Hstep. simpl in Hstep.
      unfold handleGenerateScene_begin in Hstep. rewrite Hsc in Hstep.
      destruct (decide (j = index)) as [->|Hne].
      * left. assert (sc = scene) as -> by congruence. by step_inv.
      * right; right. step_inv. eexists; split; [done|]. simpl. split.
        -- by rewrite update_scene_other.
        -- repeat constructor. intros params [= ?]. done.
    + right; right. rewrite Hdir in Hstep. simpl in Hstep.
      destruct (bool_decide (j ∈ Director.inflight d)) eqn:Hin; [|done].
      apply bool_decide_eq_true in Hin.
      destruct (inv_inflight _ HInv d Hdir j Hin) as (sc & Hsc & Hst).
      assert (j <> index) by (intros ->; congruence).
      unfold in_director in Hstep. rewrite Hdir in Hstep. simpl in Hstep.
      destruct r as [result|e]; step_inv.
      all: eexists; split; [done|]; simpl; split;
        [by rewrite update_scene_other|by repeat constructor].
Qed.

(** ** The object URLs *)

Lemma pollLoop_urls fuel : forall op w,
  objectURLs (world (pollLoop fuel op w)) = objectURLs w.
Proof.
  induction fuel as [|fuel IH]; intros op w; simpl;
    destruct (op_done op); try done.
  run_bind. unfold call.
  destruct (ai_getVideosOperation op (outside w)) as [[op'|e] o]; simpl; [|done].
  by rewrite IH.
Qed.

Lemma deliver_urls op w :
  objectURLs (world (deliver op w)) =
    match result (deliver op w) with
    | Fulfilled res => VideoResult.objectUrl res :: objectURLs w
    | _ => objectURLs w
    end.
Proof.
  unfold deliver.
  destruct (op_response op) as [response|]; [|done].
  destruct (generatedVideos response) as [[|firstVideo ?]|]; try done.
  destruct (video firstVideo) as [videoObject|]; [|done].
  destruct (decodeURIComponent _) as [url|]; [|done].
  run_bind. unfold call.
  destruct (fetch _ _) as [[res|e] o]; simpl; [|done].
  destruct (ok res); simpl; [|done].
  destruct (res_blob res o) as [[videoBlob|e] o']; simpl; [|done].
  unfold createObjectURL; simpl.
  by destruct (URL_createObjectURL videoBlob o') as [objectUrl o''].
Qed.

Lemma generateVideo_urls fuel params w :
  objectURLs (world (generateVideo fuel params w)) =
    match result (generateVideo fuel params w) with
    | Fulfilled res => VideoResult.objectUrl res :: objectURLs w
    | _ => objectURLs w
    end.
Proof.
  unfold generateVideo. run_bind.
  destruct (buildPayload params) as [payload|e]; simpl; [|done].
  unfold call.
  destruct (ai_generateVideos payload (outside w)) as [[op0|e] o]; simpl; [|done].
  set (w1 := {| outside := o; objectURLs := objectURLs w |}).
  pose proof (pollLoop_urls fuel op0 w1) as Hpoll.
  destruct (result (pollLoop fuel op0 w1)) as [opf|e|]; simpl; try done.
  by rewrite deliver_urls, Hpoll.
Qed.

Lemma parseScript_urls script w :
  objectURLs (world (parseScript script w)) = objectURLs w.
Proof.
  unfold parseScript. run_bind. unfold call.
  destruct (ai_generateContent _ _) as [[response|e] o]; simpl; [|done].
  by destruct (parseScript_try _).
Qed.


(** The number of polls looked at only bounds the observation: a run that
    has settled is the same under every larger bound. *)
Lemma pollLoop_settled_stable fuel : forall op w k,
  result (pollLoop fuel op w) <> Pending ->
  pollLoop (fuel + k) op w = pollLoop fuel op w.
Proof.
  induction fuel as [|fuel IH]; intros op w k Hres; simpl in *.
  - destruct (op_done op) eqn:Hdone; [|done].
    destruct k; simpl; by rewrite Hdone.
  - destruct (op_done op); [done|]. revert Hres. run_bind. unfold call.
    destruct (ai_getVideosOperation op (outside w)) as [[op'|e] o]; simpl; [|done].
    intros Hres. by rewrite IH.
Qed.

Lemma generateVideo_settled_stable fuel params w k :
  result (generateVideo fuel params w) <> Pending ->
  generateVideo (fuel + k) params w = generateVideo fuel params w.
Proof.
  unfold generateVideo. run_bind.
  destruct (buildPayload params) as [payload|e]; simpl; [|done].
  unfold call.
  destruct (ai_generateVideos payload (outside w)) as [[op0|e] o]; simpl; [|done].
  intros Hres. rewrite pollLoop_settled_stable; [done|].
  intros Hp. by rewrite Hp in Hres.
Qed.

(** ** Sessions driven against the world stay within [reachable] *)

Lemma reachable_resume pg act : reachable pg -> reachable (resume pg act).
Proof.
  intros Hreach. unfold resume.
  destruct act as [act|]; simpl; [|done].
  destruct (step pg act) as [[pg' effs]|] eqn:Hstep; [|done].
  by eapply reachable_step.
Qed.

Lemma perform_reachable fuel sys eff :
  reachable (page sys) -> reachable (page (perform fuel sys eff)).
Proof.
  intros Hreach. destruct eff; simpl; try done; by apply reachable_resume.
Qed.

Lemma drive_reachable fuel sys act sys' :
  reachable (page sys) -> drive fuel sys act = Some sys' -> reachable (page sys').
Proof.
  intros Hreach Hdrive. unfold drive in Hdrive.
  destruct (step (page sys) act) as [[pg' effs]|] eqn:Hstep; simpl in Hdrive; [|done].
  inversion Hdrive; subst; clear Hdrive.
  assert (Hpg' : reachable pg') by (by eapply reachable_step).
  set (sys1 := {| page := pg'; env := env sys; history := history sys |}).
  assert (Hsys1 : reachable (page sys1)) by done.
  clearbody sys1. clear Hstep Hpg'. revert sys1 Hsys1.
  induction effs as [|eff effs IH]; intros sys1 Hsys1; simpl; [done|].
  by apply IH, perform_reachable.
Qed.

(** A submission that is not a script analysis adds to the history the
    events of exactly one run of [generateVideo], on the submitted values. *)
Lemma drive_submit_history fuel sys f sys' :
  Form.generationMode f <> DIRECTOR ->
  drive fuel sys (Submit f) = Some sys' ->
  history sys' = history sys ++ trace (generateVideo fuel (params_of f) (env sys)) /\
  env sys' = world (generateVideo fuel (params_of f) (env sys)).
Proof.
  intros Hmode Hdrive. unfold drive in Hdrive. simpl in Hdrive.
  destruct (form (page sys)); simpl in Hdrive; [|done].
  destruct (submit_disabled _ _); [done|].
  rewrite decide_False in Hdrive by done. simpl in Hdrive.
  by inversion Hdrive.
Qed.

(** ** Two statements that do not hold *)

(** "From [SUCCESS], [ERROR] or [DIRECTOR_READY] the only transition is back
    to [IDLE]". *)
Definition only_back_to_idle : Prop :=
  forall pg act pg' effs,
    reachable pg ->
    step pg act = Some (pg', effs) ->
    App.appState (app pg) = SUCCESS \/ App.appState (app pg) = ERROR \/
      App.appState (app pg) = DIRECTOR_READY ->
    App.appState (app pg') <> App.appState (app pg) ->
    App.appState (app pg') = IDLE.


(** * Further properties of the code *)

(** ** The request that is built *)

(** Every image the request can carry. *)
Definition payload_images (payload : Payload.t) : list ImagePayload :=
  option_list (Payload.image payload) ++
  option_list (Config.lastFrame (Payload.config payload)) ++
  (image <$> default [] (Config.referenceImages (Payload.config payload))).

Lemma buildPayload_rejected_iff params e :
  buildPayload params = Rejected e <->
  Params.mode params = EXTEND_VIDEO /\ Params.inputVideoObject params = None /\
  e = extend_error.
Proof.
  unfold buildPayload. split.
  - destruct (Params.mode params); try discriminate.
    destruct (Params.inputVideoObject params); [discriminate|].
    by intros [= <-].
  - intros (-> & -> & ->). done.
Qed.

(** X1.  [generateVideo] lets nothing out exactly when it is asked to extend
    a video without an input video object; in every other case the job is
    submitted. *)
Theorem generateVideo_silent_iff fuel params w :
  trace (generateVideo fuel params w) = [] <->
  Params.mode params = EXTEND_VIDEO /\ Params.inputVideoObject params = None.
Proof.
  destruct (generateVideo_shape fuel params w) as
    [(e & Hp & Ht & _)|(payload & r0 & Hp & Hshape)].
  - apply buildPayload_rejected_iff in Hp as (? & ? & _). by split.
  - split.
    + intros Ht. destruct r0 as [op0|e].
      * destruct Hshape as (? & ? & ? & Ht' & _). by rewrite Ht in Ht'.
      * destruct Hshape as [Ht' _]. by rewrite Ht in Ht'.
    + intros [Hmode Hinput].
      assert (buildPayload params = Rejected extend_error) as Hr
        by by apply buildPayload_rejected_iff.
      congruence.
Qed.

(** X2.  What a request carries is decided by the mode alone: a last frame
    only in [FRAMES_TO_VIDEO], reference images only in
    [REFERENCES_TO_VIDEO], a video only in [EXTEND_VIDEO] (and then no aspect
    ratio), whatever else was supplied; the start frame travels as [image]
    in every mode, and one video of the given model and resolution is asked
    for. *)
Theorem payload_by_mode params payload :
  buildPayload params = Resolved payload ->
  (Params.mode params <> FRAMES_TO_VIDEO ->
     Config.lastFrame (Payload.config payload) = None) /\
  (Params.mode params <> REFERENCES_TO_VIDEO ->
     Config.referenceImages (Payload.config payload) = None) /\
  (Params.mode params <> EXTEND_VIDEO ->
     Payload.video payload = None /\
     Config.aspectRatio (Payload.config payload) = Some (Params.aspectRatio params)) /\
  (Params.mode params = EXTEND_VIDEO ->
     Payload.video payload = Params.inputVideoObject params /\
     Config.aspectRatio (Payload.config payload) = None) /\
  Payload.image payload = imagePayload <$> Params.startFrame params /\
  Payload.model payload = Params.model params /\
  Config.resolution (Payload.config payload) = Params.resolution params /\
  Config.numberOfVideos (Payload.config payload) = 1%Z.
Proof.
  unfold buildPayload, buildConfig.
  destruct (Params.mode params) eqn:Hmode;
    try (intros [= <-]; simpl; rewrite ?Hmode; repeat split; congruence).
  destruct (Params.inputVideoObject params) as [v|] eqn:Hin; [|done].
  intros [= <-]; simpl; rewrite ?Hmode. repeat split; congruence.
Qed.

(** X3.  In [REFERENCES_TO_VIDEO] mode the request lists the reference
    images in their order, each as an [ASSET] with its bytes, and leaves the
    list out when there is none (no array, or an empty one). *)
Theorem payload_referenceImages params payload :
  buildPayload params = Resolved payload ->
  Params.mode params = REFERENCES_TO_VIDEO ->
  let imgs := default [] (Params.referenceImages params) in
  (imgs = [] -> Config.referenceImages (Payload.config payload) = None) /\
  (imgs <> [] ->
     exists refs,
       Config.referenceImages (Payload.config payload) = Some refs /\
       length refs = length imgs /\
       forall i img, imgs !! i = Some img ->
         refs !! i = Some {| image := {| imageBytes := base64 img;
                                         mimeType := mimeType_of img |};
                             referenceType := ASSET |}).
Proof.
  intros Hp Hmode imgs. unfold buildPayload in Hp. rewrite Hmode in Hp.
  injection Hp as <-. simpl. rewrite Hmode. unfold referenceImagesPayload.
  subst imgs. destruct (Params.referenceImages params) as [[|img imgs]|]; simpl.
  - by split.
  - split; [done|]. intros _. eexists. split; [done|]. split.
    + simpl. by rewrite length_map.
    + intros [|i] img' Hi; simpl in *.
      * by injection Hi as <-.
      * rewrite list_lookup_fmap, Hi. done.
  - by split.
Qed.

(** X4.  In [FRAMES_TO_VIDEO] mode without looping the last frame is the end
    frame, if there is one; with looping it is the start frame, so that a
    looping request without start frame has no last frame even when an end
    frame was supplied. *)
Theorem payload_lastFrame params payload :
  buildPayload params = Resolved payload ->
  Params.mode params = FRAMES_TO_VIDEO ->
  (Params.isLooping params <> Some true ->
     Config.lastFrame (Payload.config payload) =
       imagePayload <$> Params.endFrame params) /\
  (Params.isLooping params = Some true ->
     Config.lastFrame (Payload.config payload) =
       imagePayload <$> Params.startFrame params /\
     (Params.startFrame params = None ->
        Config.lastFrame (Payload.config payload) = None)).
Proof.
  intros Hp Hmode. unfold buildPayload in Hp. rewrite Hmode in Hp.
  injection Hp as <-. simpl. rewrite Hmode. unfold finalEndFrame. split.
  - by destruct (Params.isLooping params) as [[|]|].
  - intros ->. split; [done|]. by intros ->.
Qed.

(** The image files a request can be built from. *)
Definition params_images (params : GenerateVideoParams) : list ImageFile :=
  option_list (Params.startFrame params) ++
  option_list (Params.endFrame params) ++
  default [] (Params.referenceImages params).

(** What an image of the request says of the file it was made from. *)
Definition sent_as (img : ImageFile) (ip : ImagePayload) : Prop :=
  imageBytes ip = base64 img /\
  (file_type img <> "" -> mimeType ip = file_type img) /\
  (file_type img = "" -> mimeType ip = "image/png").

Lemma imagePayload_sent_as img : sent_as img (imagePayload img).
Proof.
  unfold sent_as, imagePayload, mimeType_of. simpl.
  by destruct (file_type img).
Qed.

Lemma sent_as_nonempty img ip : sent_as img ip -> mimeType ip <> "".
Proof.
  intros (_ & Hsome & Hnone). destruct (decide (file_type img = "")) as [He|Hne].
  - by rewrite (Hnone He).
  - by rewrite (Hsome Hne).
Qed.

(** X5.  Every image of a request (the image, the last frame, the reference
    images) is made from one of the image files handed in, with its bytes;
    its MIME type is the type of the file when the file has one and
    [image/png] otherwise, so that no image goes out with an empty type. *)
Theorem payload_mimeTypes params payload :
  buildPayload params = Resolved payload ->
  Forall (fun ip =>
            mimeType ip <> "" /\
            exists img, img ∈ params_images params /\ sent_as img ip)
    (payload_images payload).
Proof.
  intros Hp.
  assert (Hparts : Payload.config payload = buildConfig params /\
                   Payload.image payload = imagePayload <$> Params.startFrame params).
  { unfold buildPayload in Hp.
    destruct (Params.mode params); try (by injection Hp as <-).
    destruct (Params.inputVideoObject params); [|done]. by injection Hp as <-. }
  destruct Hparts as [Hc Hi].
  assert (Hfrom : forall ip, ip ∈ payload_images payload ->
             exists img, img ∈ params_images params /\ ip = imagePayload img).
  { intros ip. unfold payload_images, params_images. rewrite Hc, Hi.
    rewrite !elem_of_app. intros [Hip|[Hip|Hip]].
    - destruct (Params.startFrame params) as [img|]; simpl in Hip;
        [|by apply elem_of_nil in Hip].
      apply list_elem_of_singleton in Hip as ->. exists img. split; [|done].
      apply elem_of_app. left. apply list_elem_of_here.
    - simpl in Hip. unfold finalEndFrame in Hip.
      destruct (Params.mode params); simpl in Hip;
        try (by apply elem_of_nil in Hip).
      destruct (Params.isLooping params) as [[|]|];
        [destruct (Params.startFrame params) as [img|]
        |destruct (Params.endFrame params) as [img|]..]; simpl in Hip;
        try (by apply elem_of_nil in Hip);
        apply list_elem_of_singleton in Hip as ->; exists img; (split; [|done]).
      + apply elem_of_app. left. apply list_elem_of_here.
      + apply elem_of_app. right. apply elem_of_app. left.
        apply list_elem_of_here.
      + apply elem_of_app. right. apply elem_of_app. left.
        apply list_elem_of_here.
    - simpl in Hip.
      destruct (Params.mode params); simpl in Hip;
        try (by apply elem_of_nil in Hip).
      unfold referenceImagesPayload in Hip.
      destruct (Params.referenceImages params) as [imgs|]; simpl in Hip;
        [|by apply elem_of_nil in Hip].
      assert (Hrefs : ip ∈ imagePayload <$> imgs).
      { destruct imgs as [|img imgs]; simpl in Hip; [done|].
        by rewrite <- list_fmap_compose in Hip. }
      apply list_elem_of_fmap in Hrefs as (img & -> & Himg).
      exists img. split; [|done]. 
      apply elem_of_app. right. apply elem_of_app. by right. }
  apply Forall_forall. intros ip Hip.
  destruct (Hfrom ip Hip) as (img & Himg & ->).
  split; [exact (sent_as_nonempty img _ (imagePayload_sent_as img))|].
  exists img. split; [done|apply imagePayload_sent_as].
Qed.

(** ** The run of [generateVideo], piece by piece *)

(** The error a call was rejected with, if the event is a rejected call. *)
Definition rejection_of (ev : Event) : option thrown :=
  match ev with
  | EvGenerateContent _ (Rejected e) | EvGenerateVideos _ (Rejected e)
  | EvGetVideosOperation _ (Rejected e) | EvFetch _ (Rejected e)
  | EvBlob (Rejected e) => Some e
  | _ => None
  end.

Definition is_rejection (ev : Event) : bool :=
  match rejection_of ev with Some _ => true | None => false end.

(** A run in which a rejected call, if there is one, comes last and decides
    the result. *)
Definition Strict {A} (r : Run A) : Prop :=
  Forall (fun ev => is_rejection ev = false) (trace r) \/
  (exists t ev e,
     trace r = t ++ [ev] /\ Forall (fun ev => is_rejection ev = false) t /\
     rejection_of ev = Some e /\ result r = Failed e).

Lemma pollLoop_Strict fuel : forall op w, Strict (pollLoop fuel op w).
Proof.
  induction fuel as [|fuel IH]; intros op w; simpl;
    destruct (op_done op); try (by left).
  run_bind. unfold call.
  destruct (ai_getVideosOperation op (outside w)) as [[op'|e] o]; simpl.
  - destruct (IH op' {| outside := o; objectURLs := objectURLs w |})
      as [Hall|(t & ev & e & Ht & Hnone & Hrej & Hres)].
    + left. by repeat constructor.
    + right. exists (EvSetTimeout POLL_DELAY
                       :: EvGetVideosOperation op (Resolved op') :: t), ev, e.
      rewrite Ht. repeat split; try done. by repeat constructor.
  - right. exists [EvSetTimeout POLL_DELAY], (EvGetVideosOperation op (Rejected e)), e.
    repeat split; try done. by repeat constructor.
Qed.

Lemma deliver_Strict op w : Strict (deliver op w).
Proof.
  unfold deliver.
  destruct (op_response op) as [response|]; [|by left].
  destruct (generatedVideos response) as [[|firstVideo ?]|]; try (by left).
  destruct (video firstVideo) as [videoObject|]; [|by left].
  destruct (decodeURIComponent _) as [url|]; [|by left].
  run_bind. unfold call.
  destruct (fetch _ _) as [[res|e] o]; simpl.
  2:{ right. by eexists [], _, e. }
  destruct (ok res); simpl; [|left; by repeat constructor].
  destruct (res_blob res o) as [[videoBlob|e] o']; simpl.
  2:{ right. eexists [_], _, e. repeat split; try done. by repeat constructor. }
  unfold createObjectURL; simpl.
  destruct (URL_createObjectURL videoBlob o') as [objectUrl o'']; simpl.
  left. by repeat constructor.
Qed.

Lemma Strict_fulfilled {A} (r : Run A) a :
  Strict r -> result r = Fulfilled a ->
  Forall (fun ev => is_rejection ev = false) (trace r).
Proof. intros [Hall|(t & ev & e & _ & _ & _ & Hres)] Ha; [done|congruence]. Qed.

Lemma generateVideo_Strict fuel params w : Strict (generateVideo fuel params w).
Proof.
  destruct (generateVideo_cases fuel params w) as
    [(e & _ & _ & Ht & _)|[(payload & e & o & _ & _ & Hres & Ht & _)|
     (payload & op0 & o & _ & _ & Hrun)]].
  - left. by rewrite Ht.
  - right. exists [], (EvGenerateVideos payload (Rejected e)), e. by rewrite Ht.
  - simpl in Hrun.
    set (p := pollLoop fuel op0 {| outside := o; objectURLs := objectURLs w |}) in *.
    pose proof (pollLoop_Strict fuel op0 {| outside := o; objectURLs := objectURLs w |})
      as Hp. fold p in Hp.
    destruct (result p) as [opf|e|] eqn:Hrp.
    + destruct Hrun as (Hres & _ & Ht).
      pose proof (Strict_fulfilled _ _ Hp Hrp) as Hnone.
      destruct (deliver_Strict opf (world p))
        as [Hall|(t & ev & e & Htd & Hnone' & Hrej & Hresd)].
      * left. rewrite Ht. constructor; [done|]. by apply Forall_app.
      * right. exists (EvGenerateVideos payload (Resolved op0) :: trace p ++ t), ev, e.
        rewrite Ht, Htd, Hres. repeat split; try done.
        -- simpl. by rewrite app_assoc.
        -- constructor; [done|]. by apply Forall_app.
    + destruct Hrun as (Hres & _ & Ht).
      destruct Hp as [Hall|(t & ev & e' & Htp & Hnone & Hrej & Hresp)].
      * left. rewrite Ht. by constructor.
      * right. exists (EvGenerateVideos payload (Resolved op0) :: t), ev, e'.
        rewrite Ht, Htp, Hres. repeat split; try done; [by constructor|congruence].
    + destruct Hrun as (Hres & _ & Ht).
      destruct Hp as [Hall|(t & ev & e' & Htp & Hnone & Hrej & Hresp)]; [|congruence].
      left. rewrite Ht. by constructor.
Qed.

Lemma Strict_split {A} (r : Run A) pre ev post e :
  Strict r -> trace r = pre ++ ev :: post -> rejection_of ev = Some e ->
  post = [] /\ result r = Failed e.
Proof.
  intros [Hall|(t & ev' & e' & Ht & Hnone & Hrej' & Hres)] Htrace Hrej.
  - rewrite Htrace, Forall_app, Forall_cons in Hall.
    destruct Hall as (_ & Hev & _). unfold is_rejection in Hev. by rewrite Hrej in Hev.
  - rewrite Ht in Htrace.
    apply (split_at_unique is_rejection) in Htrace as (_ & -> & <-); try done.
    + split; [done|]. congruence.
    + unfold is_rejection. by rewrite Hrej'.
    + unfold is_rejection. by rewrite Hrej.
Qed.

(** X6.  A call that [generateVideo] awaits and that is rejected (the
    submission, a status request, the download, the reading of the body) is
    the last thing the run does, and the run fails with that very error:
    nothing is swallowed, wrapped or tried again. *)
Theorem generateVideo_rejection_is_final fuel params w pre ev post e :
  trace (generateVideo fuel params w) = pre ++ ev :: post ->
  rejection_of ev = Some e ->
  post = [] /\ result (generateVideo fuel params w) = Failed e.
Proof. apply Strict_split, generateVideo_Strict. Qed.

Lemma pollLoop_done fuel op w :
  op_done op = true -> pollLoop fuel op w = ret op w.
Proof. intros Hdone. destruct fuel; simpl; by rewrite Hdone. Qed.

(** X7.  When the submission is answered with an operation that is already
    done, [generateVideo] neither waits nor asks for the status: it goes
    straight to the delivery. *)
Theorem generateVideo_done_at_once fuel params w payload op0 rest :
  trace (generateVideo fuel params w) = EvGenerateVideos payload (Resolved op0) :: rest ->
  op_done op0 = true ->
  Forall (fun ev => is_job_event ev = false) rest.
Proof.
  intros Htrace Hdone.
  destruct (generateVideo_cases fuel params w) as
    [(e & _ & _ & Ht & _)|[(payload' & e & o & _ & _ & _ & Ht & _)|
     (payload' & op0' & o & _ & _ & Hrun)]];
    [by rewrite Ht in Htrace|by rewrite Ht in Htrace|].
  simpl in Hrun.
  assert (op0' = op0) as ->.
  { destruct (result (pollLoop fuel op0' _)); destruct Hrun as (_ & _ & Ht);
      rewrite Ht in Htrace; by injection Htrace. }
  rewrite pollLoop_done in Hrun by done. simpl in Hrun.
  destruct Hrun as (_ & _ & Ht). rewrite Ht in Htrace. injection Htrace as _ <-.
  destruct (deliver_trace op0 {| outside := o; objectURLs := objectURLs w |})
    as [->|(url & fr & rest & -> & Hrest)]; [done|].
  constructor; [done|]. by apply after_fetch_no_job.
Qed.


(** X9.  A generation that does not fulfil its promise leaves no object URL
    behind. *)
Theorem generateVideo_no_url_unless_fulfilled fuel params w :
  (forall res, result (generateVideo fuel params w) <> Fulfilled res) ->
  objectURLs (world (generateVideo fuel params w)) = objectURLs w.
Proof.
  intros Hnot. rewrite generateVideo_urls.
  destruct (result (generateVideo fuel params w)) as [res| |]; try done.
  by destruct (Hnot res).
Qed.

(** What a delivery that downloads goes through, by the answer of [fetch]. *)
Lemma deliver_fetch op w url fr post :
  trace (deliver op w) = EvFetch url fr :: post ->
  exists response firstVideo others videoObject uri',
    op_response op = Some response /\
    generatedVideos response = Some (firstVideo :: others) /\
    video firstVideo = Some videoObject /\
    decodeURIComponent (default "undefined" (uri videoObject)) = Some uri' /\
    url = (uri' ++ "&key=" ++ API_KEY)%string /\
    match fr with
    | Rejected e =>
        post = [] /\ result (deliver op w) = Failed e /\
        objectURLs (world (deliver op w)) = objectURLs w
    | Resolved res =>
        if ok res then
          exists rb,
            match rb with
            | Rejected e =>
                post = [EvBlob rb] /\
                result (deliver op w) = Failed e /\
                objectURLs (world (deliver op w)) = objectURLs w
            | Resolved videoBlob =>
                exists objectUrl,
                  post = [EvBlob rb; EvCreateObjectURL videoBlob objectUrl] /\
                  result (deliver op w) =
                    Fulfilled {| VideoResult.objectUrl := objectUrl;
                                 VideoResult.blob := videoBlob;
                                 VideoResult.uri := uri';
                                 VideoResult.video := videoObject |} /\
                  objectURLs (world (deliver op w)) = objectUrl :: objectURLs w
            end
        else
          post = [] /\
          result (deliver op w) =
            Failed (new_Error ("Failed to fetch video: " ++ pretty (status res))) /\
          objectURLs (world (deliver op w)) = objectURLs w
    end.
Proof.
  unfold deliver.
  destruct (op_response op) as [response|] eqn:Hresp; [|done].
  destruct (generatedVideos response) as [[|firstVideo others]|] eqn:Hvids; try done.
  destruct (video firstVideo) as [videoObject|] eqn:Hvideo; [|done].
  destruct (decodeURIComponent _) as [uri'|] eqn:Hdec; [|done].
  run_bind. unfold call.
  destruct (fetch _ _) as [[res|e] o]; simpl.
  2:{ intros [= <- <- <-]. eexists _, _, _, _, _. by repeat split. }
  destruct (ok res) eqn:Hok; simpl.
  2:{ intros [= <- <- <-]. eexists _, _, _, _, _. repeat split; try done.
      by rewrite Hok. }
  destruct (res_blob res o) as [[videoBlob|e] o']; simpl.
  2:{ intros [= <- <- <-]. eexists _, _, _, _, _. repeat split; try done.
      rewrite Hok. by exists (Rejected e). }
  unfold createObjectURL; simpl.
  destruct (URL_createObjectURL videoBlob o') as [objectUrl o'']; simpl.
  intros [= <- <- <-]. eexists _, _, _, _, _. repeat split; try done.
  rewrite Hok. exists (Resolved videoBlob). by exists objectUrl.
Qed.

(** The download of a run is the download of its delivery. *)
Lemma generateVideo_fetch_inv fuel params w pre url fr post :
  trace (generateVideo fuel params w) = pre ++ EvFetch url fr :: post ->
  exists payload op0 opf wd,
    pre = EvGenerateVideos payload (Resolved op0) :: drop 1 pre /\
    Polling op0 (drop 1 pre) (Fulfilled opf) /\
    objectURLs wd = objectURLs w /\
    trace (deliver opf wd) = EvFetch url fr :: post /\
    result (generateVideo fuel params w) = result (deliver opf wd) /\
    world (generateVideo fuel params w) = world (deliver opf wd).
Proof.
  intros Htrace.
  destruct (generateVideo_cases fuel params w) as
    [(e & _ & _ & Ht & _)|[(payload & e & o & _ & _ & _ & Ht & _)|
     (payload & op0 & o & _ & _ & Hrun)]].
  - rewrite Ht in Htrace. by destruct pre.
  - rewrite Ht in Htrace. destruct pre as [|? [|? ?]]; discriminate.
  - simpl in Hrun.
    set (w1 := {| outside := o; objectURLs := objectURLs w |}) in *.
    pose proof (pollLoop_Polling fuel op0 w1) as HP.
    pose proof (pollLoop_urls fuel op0 w1) as Hurls.
    assert (Hjob : Forall (fun e => is_fetch e = false)
                     (EvGenerateVideos payload (Resolved op0) :: trace (pollLoop fuel op0 w1))).
    { apply job_events_no_fetch. constructor; [done|]. eapply Polling_job_events, HP. }
    destruct (result (pollLoop fuel op0 w1)) as [opf|e|] eqn:Hrp.
    + destruct Hrun as (Hres & Hw & Ht). rewrite Ht, app_comm_cons in Htrace.
      destruct (deliver_trace opf (world (pollLoop fuel op0 w1)))
        as [Hd|(url' & fr' & rest & Hd & Hrest)]; rewrite Hd in Htrace.
      * rewrite app_nil_r in Htrace. by eapply no_fetch_in in Hjob.
      * apply (split_at_unique is_fetch) in Htrace as (<- & [= <- <-] & <-);
          [|done|done|by apply after_fetch_no_fetch|done].
        exists payload, op0, opf, (world (pollLoop fuel op0 w1)). by simpl.
    + destruct Hrun as (_ & _ & Ht). rewrite Ht in Htrace.
      by eapply no_fetch_in in Hjob.
    + destruct Hrun as (_ & _ & Ht). rewrite Ht in Htrace.
      by eapply no_fetch_in in Hjob.
Qed.

(** X10.  When the download is answered with a status that is not ok,
    [generateVideo] fails with [Failed to fetch video: ] followed by the
    status in decimal, without reading the body and without making an object
    URL. *)
Theorem generateVideo_download_refused fuel params w pre url res post :
  trace (generateVideo fuel params w) = pre ++ EvFetch url (Resolved res) :: post ->
  ok res = false ->
  post = [] /\
  result (generateVideo fuel params w) =
    Failed (new_Error ("Failed to fetch video: " ++ pretty (status res))) /\
  objectURLs (world (generateVideo fuel params w)) = objectURLs w.
Proof.
  intros Htrace Hok.
  destruct (generateVideo_fetch_inv _ _ _ _ _ _ _ Htrace)
    as (payload & op0 & opf & wd & _ & _ & Hurls & Hd & Hres & Hw).
  destruct (deliver_fetch _ _ _ _ _ Hd) as (? & ? & ? & ? & ? & _ & _ & _ & _ & _ & Hfr).
  rewrite Hok in Hfr. destruct Hfr as (-> & Hr & Hu).
  rewrite Hres, Hw, Hr, Hu. done.
Qed.

(** X11.  When [generateVideo] fulfils its promise, the run ended with
    exactly one download, answered ok, of the decoded URI of the first
    generated video of the finished operation with [&key=] and the API key
    appended; the result carries that video object, the decoded URI without
    the key, the body that was read and the object URL made for it. *)
Theorem generateVideo_fulfilled fuel params w res :
  result (generateVideo fuel params w) = Fulfilled res ->
  exists payload op0 polls opf response firstVideo others fr,
    trace (generateVideo fuel params w) =
      EvGenerateVideos payload (Resolved op0) :: polls ++
        [EvFetch (VideoResult.uri res ++ "&key=" ++ API_KEY) (Resolved fr);
         EvBlob (Resolved (VideoResult.blob res));
         EvCreateObjectURL (VideoResult.blob res) (VideoResult.objectUrl res)] /\
    Polling op0 polls (Fulfilled opf) /\
    op_response opf = Some response /\
    generatedVideos response = Some (firstVideo :: others) /\
    video firstVideo = Some (VideoResult.video res) /\
    decodeURIComponent (default "undefined" (uri (VideoResult.video res)))
      = Some (VideoResult.uri res) /\
    ok fr = true.
Proof.
  intros Hres.
  destruct (generateVideo_cases fuel params w) as
    [(e & _ & Hr & _)|[(payload & e & o & _ & _ & Hr & _)|
     (payload & op0 & o & _ & _ & Hrun)]]; [congruence|congruence|].
  simpl in Hrun.
  set (w1 := {| outside := o; objectURLs := objectURLs w |}) in *.
  pose proof (pollLoop_Polling fuel op0 w1) as HP.
  destruct (result (pollLoop fuel op0 w1)) as [opf|e|] eqn:Hrp;
    [|destruct Hrun as (Hr & _); congruence..].
  destruct Hrun as (Hr & _ & Ht). rewrite Hres in Hr. symmetry in Hr.
  destruct (deliver_trace opf (world (pollLoop fuel op0 w1)))
    as [Hd|(url & fr & rest & Hd & _)].
  { exfalso. revert Hd Hr. unfold deliver.
    destruct (op_response opf) as [response|]; [|done].
    destruct (generatedVideos response) as [[|firstVideo ?]|]; try done.
    destruct (video firstVideo) as [videoObject|]; [|done].
    destruct (decodeURIComponent _) as [url|]; [|done].
    run_bind. unfold call. by destruct (fetch _ _) as [[r|e] o1]. }
  destruct (deliver_fetch _ _ _ _ _ Hd)
    as (response & firstVideo & others & videoObject & uri' & Hresp & Hvid & Hvo &
        Hdec & -> & Hfr).
  destruct fr as [r|e]; [|destruct Hfr as (_ & Hf & _); congruence].
  destruct (ok r) eqn:Hok; [|destruct Hfr as (_ & Hf & _); congruence].
  destruct Hfr as ([videoBlob|e] & Hrb); [|destruct Hrb as (_ & Hf & _); congruence].
  destruct Hrb as (objectUrl & Hpost & Hf & _).
  rewrite Hr in Hf. injection Hf as ->. simpl.
  exists payload, op0, (trace (pollLoop fuel op0 w1)), opf, response, firstVideo,
    others, r.
  rewrite Ht, Hd, Hpost. by repeat split.
Qed.

(** ** The run of [parseScript] *)

(** X12.  [parseScript] asks the service once, for the analysis of the given
    script.  A rejection of that request is passed on as it is, not turned
    into the script error; the script error is thrown only after the failure
    has been logged to the console. *)
Theorem parseScript_one_request script w :
  exists r,
    match r with
    | Rejected e =>
        trace (parseScript script w) = [EvGenerateContent (script_request script) r] /\
        result (parseScript script w) = Failed e
    | Resolved _ =>
        (trace (parseScript script w) = [EvGenerateContent (script_request script) r] /\
         exists scenes, result (parseScript script w) = Fulfilled scenes) \/
        (trace (parseScript script w) =
           [EvGenerateContent (script_request script) r; EvConsoleError] /\
         result (parseScript script w) = Failed parse_error)
    end.
Proof.
  unfold parseScript. run_bind. unfold call.
  destruct (ai_generateContent _ _) as [[response|e] o]; simpl.
  - exists (Resolved response).
    destruct (parseScript_try _) as [scenes|]; simpl; [left|right]; eauto.
  - by exists (Rejected e).
Qed.

Lemma makeScene_fields index item s :
  makeScene index item = Some s ->
  item <> JNull /\
  getField "title" item = Resolved (Scene.title s) /\
  getField "prompt" item = Resolved (Scene.prompt s).
Proof.
  unfold makeScene. destruct item; simpl; try (by intros [= <-]).
Qed.

Lemma mapScenes_total items : forall index,
  JNull ∉ items -> is_Some (mapScenes index items).
Proof.
  induction items as [|item items IH]; intros index Hnull; simpl; [by eexists|].
  apply not_elem_of_cons in Hnull as [Hne Hnull].
  destruct (makeScene index item) as [s|] eqn:Hs.
  - simpl. destruct (IH (S index) Hnull) as [ss ->]. by eexists.
  - exfalso. revert Hs. unfold makeScene. by destruct item.
Qed.

Lemma mapScenes_null items : forall index,
  JNull ∈ items -> mapScenes index items = None.
Proof.
  induction items as [|item items IH]; intros index Hnull; simpl.
  - by apply elem_of_nil in Hnull.
  - apply elem_of_cons in Hnull as [<-|Hnull]; [done|].
    destruct (makeScene index item); simpl; [|done]. by rewrite IH.
Qed.

(** X13.  When the text of the analysis parses to an array without [null],
    [parseScript] returns one scene per element, in order, whose title and
    prompt are what reading [title] and [prompt] of the element gives:
    [undefined] where the element has no such field or is not an object. *)
Theorem parseScript_scene_per_item script w response o items :
  ai_generateContent (script_request script) (outside w) = (Resolved response, o) ->
  GenerateContent.text response ≫= JSON_parse = Some (JArr items) ->
  JNull ∉ items ->
  exists scenes,
    result (parseScript script w) = Fulfilled scenes /\
    length scenes = length items /\
    forall i item, items !! i = Some item ->
      exists s, scenes !! i = Some s /\
        getField "title" item = Resolved (Scene.title s) /\
        getField "prompt" item = Resolved (Scene.prompt s).
Proof.
  intros Hcall Htext Hnull.
  pose proof (parseScript_cases script w) as Hc. simpl in Hc.
  rewrite Hcall in Hc. unfold parseScript_try in Hc. rewrite Htext in Hc.
  simpl in Hc. destruct (mapScenes_total items 0 Hnull) as [scenes Hmap].
  rewrite Hmap in Hc. exists scenes. split; [done|].
  pose proof (mapScenes_length _ _ _ Hmap) as Hlen. split; [done|].
  intros i item Hi.
  destruct (lookup_lt_is_Some_2 scenes i) as [s Hs].
  { rewrite Hlen. by eapply lookup_lt_Some. }
  destruct (mapScenes_lookup _ _ _ _ _ Hmap Hs) as (item' & Hi' & Hmk).
  assert (item' = item) as -> by congruence.
  exists s. split; [done|]. by apply makeScene_fields in Hmk as (_ & ? & ?).
Qed.

(** X14.  When the text parses to something that is not an array, or to an
    array with a [null] among its elements, [parseScript] throws the script
    error: one bad element spoils the whole storyboard. *)
Theorem parseScript_not_a_storyboard script w response o rawData :
  ai_generateContent (script_request script) (outside w) = (Resolved response, o) ->
  GenerateContent.text response ≫= JSON_parse = Some rawData ->
  (forall items, rawData = JArr items -> JNull ∈ items) ->
  result (parseScript script w) = Failed parse_error.
Proof.
  intros Hcall Htext Hbad.
  pose proof (parseScript_cases script w) as Hc. simpl in Hc.
  rewrite Hcall in Hc. unfold parseScript_try in Hc. rewrite Htext in Hc.
  simpl in Hc. destruct rawData as [| | | |items|]; try done. simpl in Hc.
  by rewrite mapScenes_null in Hc by by apply Hbad.
Qed.

(** ** The pages of a session *)

(** The cells of [App] after an action. *)
Definition next_app (act : Action) (a : App.t) : App.t :=
  match act with
  | Submit f =>
      if decide (Form.generationMode f = DIRECTOR) then a
      else (handleGenerate_begin (params_of f) a).1
  | ParseSettled (Resolved scenes) => handleDirectorParse scenes a
  | GenerateSettled r => handleGenerate_settle r a
  | Retry =>
      match App.lastConfig a with
      | Some params => (handleGenerate_begin params a).1
      | None => a
      end
  | NewVideo | TryAgain | NewProject => handleNewVideo a
  | ParseSettled (Rejected _) | Extend | ProduceScene _ | RetryScene _
  | SceneSettled _ _ => a
  end.

Lemma step_next_app pg act pg' effs :
  step pg act = Some (pg', effs) -> app pg' = next_app act (app pg).
Proof.
  intros Hstep.
  destruct act as [f|r|r| | | | | |index|index|index r]; simpl in *.
  - destruct (form pg); simpl in Hstep; [|done].
    destruct (submit_disabled _ _); [done|].
    destruct (decide (Form.generationMode f = DIRECTOR)); step_inv.
  - destruct (pendingParse pg); [done|]. destruct r; step_inv.
  - destruct (pendingGenerate pg); [done|]. step_inv.
  - destruct (App.appState (app pg)), (App.videoUrl (app pg)) as [url|] eqn:Hurl,
      (App.lastConfig (app pg)); try done.
    destruct (str_truthy url); step_inv. by rewrite Hurl.
  - destruct (App.appState (app pg)) eqn:Hst,
      (App.videoUrl (app pg)) as [url|] eqn:Hurl; try done.
    destruct (str_truthy url); step_inv.
  - destruct (App.appState (app pg)), (App.videoUrl (app pg)) as [url|]; try done.
    destruct (str_truthy url); step_inv.
  - case_decide; step_inv.
  - case_decide; step_inv.
  - destruct (scene_has _ _ _); [|done]. by apply in_director_app in Hstep as [? _].
  - destruct (scene_has _ _ _); [|done]. by apply in_director_app in Hstep as [? _].
  - destruct (director pg); simpl in Hstep; [|done].
    destruct (bool_decide _); [|done]. by apply in_director_app in Hstep as [? _].
Qed.

(** What the cells of [App] hold in each state of the view. *)
Record Shown (a : App.t) : Prop := {
  shown_error : App.appState a = ERROR -> is_Some (App.errorMessage a);
  shown_loading : App.appState a = LOADING -> App.errorMessage a = None;
  shown_success :
    App.appState a = SUCCESS ->
    is_Some (App.videoUrl a) /\ is_Some (App.lastVideoObject a) /\
    is_Some (App.lastVideoBlob a);
  shown_idle :
    App.appState a = IDLE -> App.videoUrl a = None /\ App.storyboardScenes a = [];
  shown_mode : forall params,
    App.lastConfig a = Some params -> Params.mode params <> DIRECTOR
}.

Lemma reachable_Shown pg : reachable pg -> Shown (app pg).
Proof.
  induction 1 as [|pg act pg' effs Hreach IH Hstep].
  - by split.
  - pose proof (step_offered _ _ _ _ Hreach Hstep) as Hoff.
    rewrite (step_next_app _ _ _ _ Hstep).
    destruct IH as [Herr Hload Hsucc Hidle Hmode].
    destruct act as [f|[scenes|e]|[res|e]| | | | | |index|index|index r];
      simpl in *;
      try destruct (decide (Form.generationMode f = DIRECTOR));
      try destruct (App.lastConfig (app pg)) as [cfg|] eqn:Hcfg;
      first [ by split; auto
            | split; simpl; intros; simplify_eq; try done; try congruence;
              try (repeat split; by eexists); eauto ].
Qed.

(** X15.  The view never shows a state without what it needs: in [ERROR]
    there is a message, in [SUCCESS] a video URL with its video object and
    blob, in [LOADING] the message of an earlier failure is gone, in [IDLE]
    no video URL and no storyboard are left over. *)
Theorem view_has_what_it_shows pg :
  reachable pg ->
  (App.appState (app pg) = ERROR -> is_Some (App.errorMessage (app pg))) /\
  (App.appState (app pg) = SUCCESS ->
     is_Some (App.videoUrl (app pg)) /\ is_Some (App.lastVideoObject (app pg)) /\
     is_Some (App.lastVideoBlob (app pg))) /\
  (App.appState (app pg) = LOADING -> App.errorMessage (app pg) = None) /\
  (App.appState (app pg) = IDLE ->
     App.videoUrl (app pg) = None /\ App.storyboardScenes (app pg) = []).
Proof.
  intros [Herr Hload Hsucc Hidle _]%reachable_Shown.
  split; [exact Herr|]. split; [exact Hsucc|]. split; [exact Hload|exact Hidle].
Qed.

(** X16.  The page has at most one request of its own in flight, a
    generation or a script analysis, and while it has one nothing is on
    offer but the settlement of that request. *)
Theorem one_request_at_a_time pg :
  reachable pg ->
  pendingGenerate pg + pendingParse pg <= 1 /\
  forall act pg' effs,
    pendingGenerate pg + pendingParse pg = 1 ->
    step pg act = Some (pg', effs) ->
    (pendingGenerate pg = 1 /\ exists r, act = GenerateSettled r) \/
    (pendingParse pg = 1 /\ exists r, act = ParseSettled r).
Proof.
  intros Hreach. pose proof (reachable_Inv _ Hreach) as [Hf Hd Hg Hp Hc Hi].
  assert (Hsum : pendingGenerate pg + pendingParse pg <= 1).
  { rewrite Hg, Hp. destruct (decide (App.appState (app pg) = LOADING)) as [Hl|Hl].
    - destruct (form pg) eqn:Hform; [|lia].
      assert (App.appState (app pg) = IDLE) by (apply Hf; eauto). congruence.
    - destruct (form pg) as [s|]; [destruct (Form.isAnalyzing s)|]; lia. }
  split; [done|]. intros act pg' effs Hone Hstep.
  pose proof (step_offered _ _ _ _ Hreach Hstep) as Hoff.
  destruct (decide (App.appState (app pg) = LOADING)) as [Hl|Hl].
  - left. split; [lia|]. rewrite Hl in Hoff. destruct act; try discriminate. eauto.
  - right. assert (Hpp : pendingParse pg = 1) by lia. split; [done|].
    rewrite Hp in Hpp. destruct (form pg) as [s|] eqn:Hform; [|done].
    destruct (Form.isAnalyzing s) eqn:Han; [|done].
    assert (Hidle : App.appState (app pg) = IDLE) by (apply Hf; eauto).
    rewrite Hidle in Hoff. destruct act as [f|r| | | | | | | | |]; try discriminate.
    + simpl in Hstep. rewrite Hform in Hstep. simpl in Hstep.
      unfold submit_disabled in Hstep. rewrite Han, orb_true_r in Hstep. done.
    + eauto.
Qed.

(** X17.  [generateVideo] is never asked for a video in [DIRECTOR] mode.
    A form submitted in [DIRECTOR] mode hands its script to the analysis and
    lets out nothing else.  A call awaited by [App] comes from a form
    submission with the values of the form, or from Retry with the values of
    the last generation; a call awaited by a scene comes from that scene's
    Produce or Retry button and asks for [TEXT_TO_VIDEO]. *)
Theorem never_generates_in_director_mode pg :
  reachable pg ->
  (forall f pg' effs,
     step pg (Submit f) = Some (pg', effs) ->
     Form.generationMode f = DIRECTOR ->
     effs = [EffParseScript (Form.prompt f)]) /\
  (forall act pg' effs by_ params,
     step pg act = Some (pg', effs) ->
     EffGenerateVideo by_ params ∈ effs ->
     Params.mode params <> DIRECTOR /\
     match by_ with
     | ByApp =>
         (exists f, act = Submit f /\ params = params_of f) \/
         (act = Retry /\ App.lastConfig (app pg) = Some params)
     | ByScene index =>
         (act = ProduceScene index \/ act = RetryScene index) /\
         Params.mode params = TEXT_TO_VIDEO
     end).
Proof.
  intros Hreach. split.
  { intros f pg' effs Hstep Hdir. simpl in Hstep.
    destruct (form pg); simpl in Hstep; [|done].
    destruct (submit_disabled _ _); [done|].
    rewrite decide_True in Hstep by done. by injection Hstep as _ <-. }
  intros act pg' effs by_ params Hstep Hin.
  pose proof (shown_mode _ (reachable_Shown _ Hreach)) as Hmode.
  destruct act as [f|r|r| | | | | |index|index|index r]; simpl in Hstep.
  - destruct (form pg); simpl in Hstep; [|done].
    destruct (submit_disabled _ _); [done|].
    destruct (decide (Form.generationMode f = DIRECTOR)); step_inv.
    + apply list_elem_of_singleton in Hin. done.
    + apply list_elem_of_singleton in Hin. injection Hin as -> ->.
      split; [done|]. left. by exists f.
  - destruct (pendingParse pg); [done|]. destruct r; step_inv.
    + by apply elem_of_nil in Hin.
    + apply elem_of_cons in Hin as [?|Hin]; [done|].
      by apply list_elem_of_singleton in Hin.
  - destruct (pendingGenerate pg); [done|]. step_inv. by apply elem_of_nil in Hin.
  - destruct (App.appState (app pg)), (App.videoUrl (app pg)) as [url|],
      (App.lastConfig (app pg)) as [cfg|] eqn:Hcfg; try done.
    destruct (str_truthy url); step_inv.
    apply list_elem_of_singleton in Hin. injection Hin as -> ->.
    split; [by apply Hmode|]. by right.
  - destruct (App.appState (app pg)), (App.videoUrl (app pg)) as [url|]; try done.
    destruct (str_truthy url); step_inv. by apply elem_of_nil in Hin.
  - destruct (App.appState (app pg)), (App.videoUrl (app pg)) as [url|]; try done.
    destruct (str_truthy url); step_inv. by apply elem_of_nil in Hin.
  - case_decide; step_inv. by apply elem_of_nil in Hin.
  - case_decide; step_inv. by apply elem_of_nil in Hin.
  - destruct (scene_has _ _ _) eqn:Hhas; [|done].
    apply scene_has_lookup in Hhas as (d & scene & Hdir & Hscene & _).
    unfold in_director in Hstep. rewrite Hdir in Hstep. simpl in Hstep.
    unfold handleGenerateScene_begin in Hstep. rewrite Hscene in Hstep. step_inv.
    apply list_elem_of_singleton in Hin. injection Hin as -> ->.
    split; [done|]. split; [by left|done].
  - destruct (scene_has _ _ _) eqn:Hhas; [|done].
    apply scene_has_lookup in Hhas as (d & scene & Hdir & Hscene & _).
    unfold in_director in Hstep. rewrite Hdir in Hstep. simpl in Hstep.
    unfold handleGenerateScene_begin in Hstep. rewrite Hscene in Hstep. step_inv.
    apply list_elem_of_singleton in Hin. injection Hin as -> ->.
    split; [done|]. split; [by right|done].
  - destruct (director pg) as [d|] eqn:Hdir; simpl in Hstep; [|done].
    destruct (bool_decide _); [|done].
    unfold in_director in Hstep. rewrite Hdir in Hstep. simpl in Hstep.
    destruct r; step_inv.
    + by apply elem_of_nil in Hin.
    + by apply list_elem_of_singleton in Hin.
Qed.

(** X18.  Retry repeats the submission that made the video: after a form
    submission and its fulfilment, Retry lets out the same call, with the
    values the form held then. *)
Theorem retry_repeats_submission pg f res pg1 effs1 pg2 effs2 pg3 effs3 :
  step pg (Submit f) = Some (pg1, effs1) ->
  Form.generationMode f <> DIRECTOR ->
  step pg1 (GenerateSettled (Resolved res)) = Some (pg2, effs2) ->
  step pg2 Retry = Some (pg3, effs3) ->
  effs1 = [EffGenerateVideo ByApp (params_of f)] /\
  effs3 = effs1 /\
  App.appState (app pg3) = LOADING.
Proof.
  intros H1 Hmode H2 H3.
  pose proof (step_next_app _ _ _ _ H1) as Ha1.
  pose proof (step_next_app _ _ _ _ H2) as Ha2.
  simpl in Ha1, Ha2. rewrite decide_False in Ha1 by done.
  assert (Hcfg : App.lastConfig (app pg2) = Some (params_of f)).
  { rewrite Ha2, Ha1. done. }
  assert (He1 : effs1 = [EffGenerateVideo ByApp (params_of f)]).
  { simpl in H1. destruct (form pg); simpl in H1; [|done].
    destruct (submit_disabled _ _); [done|].
    rewrite decide_False in H1 by done. by step_inv. }
  split; [done|]. rewrite (step_next_state _ _ _ _ H3). split; [|done].
  simpl in H3. rewrite Hcfg in H3.
  destruct (App.appState (app pg2)), (App.videoUrl (app pg2)) as [url|]; try done.
  destruct (str_truthy url); [|done]. by step_inv.
Qed.


(** X20.  The request of a scene is text only: built from the scene's
    prompt (left out when it is empty or missing), it carries no start
    frame, no last frame, no reference images and no video, whatever the
    scenes before it have produced. *)
Theorem scene_request_is_text_only a prompt :
  exists payload,
    buildPayload (scene_params a prompt) = Resolved payload /\
    Payload.prompt payload = (if truthy prompt then prompt else None) /\
    payload_images payload = [] /\
    Payload.video payload = None /\
    Config.aspectRatio (Payload.config payload) =
      Some (from_option Params.aspectRatio LANDSCAPE (App.lastConfig a)).
Proof. eexists. split; [reflexivity|]. by repeat split. Qed.

(** X21.  A scene that is done stays as it is: no button is rendered for
    it and no settlement concerns it, so every action either takes the
    storyboard away (New Project) or leaves the scene untouched and lets
    out no call for it. *)
Theorem done_scene_is_final pg act pg' effs d index scene :
  reachable pg ->
  director pg = Some d ->
  Director.scenes d !! index = Some scene ->
  Scene.status scene = status_done ->
  step pg act = Some (pg', effs) ->
  (act = NewProject /\ director pg' = None) \/
  (exists d', director pg' = Some d' /\
              Director.scenes d' !! index = Some scene /\
              forall params, EffGenerateVideo (ByScene index) params ∉ effs).
Proof.
  intros Hreach Hdir Hscene Hdone Hstep.
  pose proof (reachable_Inv _ Hreach) as HInv.
  assert (Hdr : App.appState (app pg) = DIRECTOR_READY).
  { apply (inv_director _ HInv). rewrite Hdir. eauto. }
  pose proof (step_offered _ _ _ _ Hreach Hstep) as Hoff. rewrite Hdr in Hoff.
  assert (Hbegin : forall j st,
            scene_has st j pg = true -> st <> status_done ->
            in_director pg (handleGenerateScene_begin (app pg) j) = Some (pg', effs) ->
            exists d', director pg' = Some d' /\
              Director.scenes d' !! index = Some scene /\
              forall params, EffGenerateVideo (ByScene index) params ∉ effs).
  { intros j st Hhas Hst Hin.
    apply scene_has_lookup in Hhas as (d0 & sc & Hd0 & Hsc & Hstat).
    assert (d0 = d) as -> by congruence.
    assert (j <> index) by (intros ->; congruence).
    unfold in_director in Hin. rewrite Hdir in Hin. simpl in Hin.
    unfold handleGenerateScene_begin in Hin. rewrite Hsc in Hin.
    injection Hin as <- <-. eexists; split; [done|]. simpl. split.
    - by rewrite update_scene_other.
    - intros params [= ?]%list_elem_of_singleton. done. }
  destruct act as [| | | | | | | |j|j|j r]; try discriminate; simpl in Hstep.
  - left. rewrite decide_True in Hstep by done. by step_inv.
  - right. destruct (scene_has status_idle j pg) eqn:Hhas; [|done].
    by apply (Hbegin j status_idle).
  - right. destruct (scene_has status_error j pg) eqn:Hhas; [|done].
    by apply (Hbegin j status_error).
  - right. rewrite Hdir in Hstep. simpl in Hstep.
    destruct (bool_decide (j ∈ Director.inflight d)) eqn:Hin; [|done].
    apply bool_decide_eq_true in Hin.
    destruct (inv_inflight _ HInv d Hdir j Hin) as (sc & Hsc & Hst).
    assert (j <> index) by (intros ->; congruence).
    unfold in_director in Hstep. rewrite Hdir in Hstep. simpl in Hstep.
    destruct r as [result|e]; step_inv.
    all: eexists; split; [done|]; simpl; split;
      [by rewrite update_scene_other|].
    + intros params Hel. by apply elem_of_nil in Hel.
    + intros params Hel. by apply list_elem_of_singleton in Hel.
Qed.

Lemma update_scene_out_of_range index f (prev : list StoryboardScene) :
  prev !! index = None -> update_scene index f prev = prev.
Proof.
  intros Hnone. apply list_eq. intros j. rewrite update_scene_lookup.
  destruct (prev !! j) as [s|] eqn:Hj; simpl; [|done].
  rewrite decide_False; [done|]. intros ->. congruence.
Qed.

(** X22.  [handleGenerateScene] on an index that has no scene lets out no
    call: reading the prompt of the missing scene throws inside the [try],
    so the scenes stay as they are and the error names the scene by its
    position counted from one. *)
Theorem handleGenerateScene_without_scene a index d :
  Director.scenes d !! index = None ->
  (handleGenerateScene_begin a index d).2 = [EffConsoleError] /\
  Director.scenes (handleGenerateScene_begin a index d).1 = Director.scenes d /\
  Director.globalError (handleGenerateScene_begin a index d).1 =
    Some ("Failed to generate Scene " ++ pretty (index + 1))%string.
Proof.
  intros Hnone. unfold handleGenerateScene_begin. rewrite Hnone. simpl.
  split; [done|]. split; [|done].
  rewrite (update_scene_out_of_range _ _ (Director.scenes d)) by done.
  by apply update_scene_out_of_range.
Qed.

Lemma blank_empty s : blank s = false -> str_truthy s = true.
Proof. by destruct s. Qed.

(** X23.  The submit button is disabled while the prompt is blank, that is,
    empty or white space from end to end, so a blank prompt is never
    submitted; a generation submitted from the form therefore carries the
    prompt: the request built from the submitted values has the prompt of
    the form. *)
Theorem submitted_request_has_prompt pg f :
  (blank (Form.prompt f) = true -> step pg (Submit f) = None) /\
  (forall pg' effs,
     step pg (Submit f) = Some (pg', effs) ->
     Form.generationMode f <> DIRECTOR ->
     blank (Form.prompt f) = false /\
     effs = [EffGenerateVideo ByApp (params_of f)] /\
     forall payload,
       buildPayload (params_of f) = Resolved payload ->
       Payload.prompt payload = Some (JStr (Form.prompt f))).
Proof.
  split.
  { intros Hblank. simpl. destruct (form pg) as [s|]; simpl; [|done].
    unfold submit_disabled. by rewrite Hblank. }
  intros pg' effs Hstep Hmode. simpl in Hstep.
  destruct (form pg) as [s|]; simpl in Hstep; [|done].
  destruct (submit_disabled f s) eqn:Hdis; [done|].
  apply orb_false_iff in Hdis as [Hblank _].
  rewrite decide_False in Hstep by done.
  split; [done|]. split; [by step_inv|].
  intros payload Hp. apply blank_empty in Hblank.
  unfold buildPayload in Hp. simpl in Hp. rewrite Hblank in Hp.
  destruct (Form.generationMode f); try (by injection Hp as <-).
  destruct (Form.inputVideoObject f); [|done]. by injection Hp as <-.
Qed.

(** The buttons; the other actions are settlements of promises. *)
Definition is_button (act : Action) : bool :=
  match act with
  | ParseSettled _ | GenerateSettled _ | SceneSettled _ _ => false
  | _ => true
  end.

(** X24.  A page offers a button exactly when it is not [LOADING] and its
    form is not analysing a script (a [SUCCESS] with an empty video URL, which
    renders nothing, set aside).  In [LOADING] only the loading indicator is
    rendered and while a script is analysed the submit button is disabled:
    the page can then only wait for the settlement of its request. *)
Theorem page_offers_a_button pg :
  reachable pg ->
  App.videoUrl (app pg) <> Some "" ->
  (exists act pg' effs, is_button act = true /\ step pg act = Some (pg', effs)) <->
  App.appState (app pg) <> LOADING /\
  (forall s, form pg = Some s -> Form.isAnalyzing s = false).
Proof.
  intros Hreach Hurl.
  pose proof (reachable_Inv _ Hreach) as [Hf Hd Hg Hp Hc Hi].
  pose proof (reachable_Shown _ Hreach) as [_ _ Hsucc _ _].
  split.
  - intros (act & pg' & effs & Hbutton & Hstep).
    pose proof (step_offered _ _ _ _ Hreach Hstep) as Hoff. split.
    + intros Hl. rewrite Hl in Hoff. by destruct act.
    + intros s Hform. destruct (Form.isAnalyzing s) eqn:Han; [|done].
      assert (Hidle : App.appState (app pg) = IDLE) by (apply Hf; eauto).
      rewrite Hidle in Hoff. destruct act as [f|r| | | | | | | | |]; try done.
      simpl in Hstep. rewrite Hform in Hstep. simpl in Hstep.
      unfold submit_disabled in Hstep. rewrite Han, orb_true_r in Hstep. done.
  - intros [Hload Hquiet].
    destruct (App.appState (app pg)) eqn:Hst; [| done | | |].
    + destruct (form pg) as [s|] eqn:Hform.
      2:{ destruct (proj2 Hf eq_refl) as [? ?]. congruence. }
      exists (Submit {| Form.prompt := "x"; Form.model := VEO_FAST;
                        Form.aspectRatio := LANDSCAPE; Form.resolution := P720;
                        Form.generationMode := TEXT_TO_VIDEO;
                        Form.startFrame := None; Form.endFrame := None;
                        Form.referenceImages := []; Form.inputVideoObject := None;
                        Form.isLooping := false |}).
      simpl. rewrite Hform. simpl. unfold submit_disabled. simpl.
      rewrite (Hquiet s eq_refl). simpl. by eexists _, _.
    + destruct (Hsucc eq_refl) as ([url Hu] & _).
      exists NewVideo. simpl. rewrite Hst, Hu.
      destruct url; [congruence|]. simpl. by eexists _, _.
    + exists TryAgain. simpl. rewrite decide_True by done. by eexists _, _.
    + exists NewProject. simpl. rewrite decide_True by done. by eexists _, _.
Qed.

(** ** Whole submissions, against the world *)

(** X25.  A generation submitted from the form, carried through: the world
    and the history are those of one run of [generateVideo] on the submitted
    values, and the page shows its outcome, [SUCCESS] with the object URL of
    the result (alive in the browser), [ERROR] with the message of what was
    thrown, or [LOADING] while the promise is unsettled. *)
Theorem drive_generation fuel sys f sys' :
  reachable (page sys) ->
  drive fuel sys (Submit f) = Some sys' ->
  Form.generationMode f <> DIRECTOR ->
  env sys' = world (generateVideo fuel (params_of f) (env sys)) /\
  history sys' = history sys ++ trace (generateVideo fuel (params_of f) (env sys)) /\
  match result (generateVideo fuel (params_of f) (env sys)) with
  | Fulfilled res =>
      App.appState (app (page sys')) = SUCCESS /\
      App.videoUrl (app (page sys')) = Some (VideoResult.objectUrl res) /\
      VideoResult.objectUrl res ∈ objectURLs (env sys') /\
      pendingGenerate (page sys') = 0
  | Failed e =>
      App.appState (app (page sys')) = ERROR /\
      App.errorMessage (app (page sys')) =
        Some (match e with ErrorObj _ message => message | NonError => "Unknown error" end) /\
      pendingGenerate (page sys') = 0
  | Pending =>
      App.appState (app (page sys')) = LOADING /\
      pendingGenerate (page sys') = 1
  end.
Proof.
  intros Hreach Hdrive Hmode.
  pose proof (reachable_Inv _ Hreach) as [Hf Hd Hg Hp Hc Hi].
  unfold drive in Hdrive. simpl in Hdrive.
  destruct (form (page sys)) as [s|] eqn:Hform; simpl in Hdrive; [|done].
  destruct (submit_disabled _ _); [done|].
  rewrite decide_False in Hdrive by done. simpl in Hdrive.
  assert (Hidle : App.appState (app (page sys)) = IDLE) by (apply Hf; eauto).
  rewrite Hidle, decide_False in Hg by done.
  injection Hdrive as <-. simpl. split; [done|]. split; [done|].
  pose proof (generateVideo_urls fuel (params_of f) (env sys)) as Hurls.
  destruct (result (generateVideo fuel (params_of f) (env sys))) as [res|e|];
    unfold resume; simpl; rewrite ?Hg; simpl.
  - repeat split; try done. rewrite Hurls. apply list_elem_of_here.
  - by destruct e.
  - done.
Qed.

(** X26.  A script submitted from the form, carried through: when
    [parseScript] returns scenes the page shows the storyboard with exactly
    those scenes, none in flight and no error; when it throws, the page is
    again exactly as it was before the submission. *)
Theorem drive_analysis fuel sys f sys' :
  reachable (page sys) ->
  drive fuel sys (Submit f) = Some sys' ->
  Form.generationMode f = DIRECTOR ->
  env sys' = world (parseScript (Form.prompt f) (env sys)) /\
  match result (parseScript (Form.prompt f) (env sys)) with
  | Fulfilled scenes =>
      App.appState (app (page sys')) = DIRECTOR_READY /\
      App.storyboardScenes (app (page sys')) = scenes /\
      director (page sys') =
        Some {| Director.scenes := scenes; Director.globalError := None;
                Director.inflight := [] |} /\
      form (page sys') = None
  | Failed e => page sys' = page sys
  | Pending => False
  end.
Proof.
  intros Hreach Hdrive Hmode.
  pose proof (reachable_Inv _ Hreach) as [Hf Hd Hg Hp Hc Hi].
  unfold drive in Hdrive. simpl in Hdrive.
  destruct (form (page sys)) as [s|] eqn:Hform; simpl in Hdrive; [|done].
  destruct (submit_disabled f s) eqn:Hdis; [done|].
  apply orb_false_iff in Hdis as [_ Han].
  rewrite decide_True in Hdrive by done. simpl in Hdrive.
  assert (Hidle : App.appState (app (page sys)) = IDLE) by (apply Hf; eauto).
  assert (Hnodir : director (page sys) = None).
  { destruct (director (page sys)) eqn:Hdir; [|done].
    assert (App.appState (app (page sys)) = DIRECTOR_READY) by (apply Hd; eauto).
    congruence. }
  rewrite Han in Hp.
  assert (Hsame : render (app (page sys)) (Some {| Form.isAnalyzing := false |})
                    (director (page sys)) (pendingGenerate (page sys))
                    (pendingParse (page sys)) = page sys).
  { unfold render. rewrite Hidle, Hnodir, decide_True, decide_False by done.
    destruct (page sys) as [a fo di g p]; simpl in *. subst.
    by destruct s as [[]]. }
  injection Hdrive as <-. simpl. split; [done|].
  pose proof (parseScript_cases (Form.prompt f) (env sys)) as Hc'. simpl in Hc'.
  destruct (ai_generateContent _ _) as [[response|e] o].
  - destruct (parseScript_try _) as [scenes|]; rewrite Hc'; unfold resume; simpl.
    + by rewrite Hnodir.
    + apply Hsame.
  - rewrite Hc'. unfold resume; simpl. apply Hsame.
Qed.

Lemma update_scene_commute i j f g (l : list StoryboardScene) :
  i <> j ->
  update_scene i f (update_scene j g l) = update_scene j g (update_scene i f l).
Proof.
  intros Hne. apply list_eq. intros k. rewrite !update_scene_lookup.
  destruct (l !! k) as [s|]; simpl; [|done]. f_equal.
  repeat case_decide; simplify_eq; done.
Qed.

(** X27.  Scenes in flight settle independently: for two different scenes
    the order in which their generations settle changes neither the scenes
    nor what is still in flight (the error line alone shows the failure that
    came last). *)
Theorem scene_settlements_commute i j ri rj d :
  i <> j ->
  let ij := (handleGenerateScene_settle j rj (handleGenerateScene_settle i ri d).1).1 in
  let ji := (handleGenerateScene_settle i ri (handleGenerateScene_settle j rj d).1).1 in
  Director.scenes ij = Director.scenes ji /\
  Director.inflight ij = Director.inflight ji.
Proof.
  intros Hne. simpl.
  assert (Hfilter : forall l : list nat,
             filter (fun k => k ≠ j) (filter (fun k => k ≠ i) l) =
             filter (fun k => k ≠ i) (filter (fun k => k ≠ j) l)).
  { intros l. rewrite !list_filter_filter. apply list_filter_iff.
    intros k. split; intros [? ?]; by split. }
  destruct ri as [resi|ei], rj as [resj|ej]; simpl;
    (split; [by rewrite (update_scene_commute j i) by done|apply Hfilter]).
Qed.

End Studio.

Arguments outside {W} _.
Arguments objectURLs {W} _.
Arguments result {W A} _.
Arguments world {W A} _.
Arguments trace {W A} _.
Arguments page {W} _.
Arguments env {W} _.
Arguments history {W} _.

(** * A rehearsal: one concrete service, and sessions against it *)

Module Rehearsal.

(** The outside counts the answers it has given. *)
Definition W : Type := nat.

Definition clip : Video :=
  {| uri := Some "https://media.example/clip.mp4?alt=media" |}.

Definition running : Operation :=
  {| op_name := "operations/7"; op_done := false; op_response := None |}.

Definition finished : Operation :=
  {| op_name := "operations/7"; op_done := true;
     op_response := Some {| generatedVideos := Some [ {| video := Some clip |} ] |} |}.

Definition footage : Blob := {| blob_bytes := "VIDEO"; blob_type := "video/mp4" |}.

Definition quoted (s : string) : string :=
  String (Ascii.ascii_of_nat 34) s ++ String (Ascii.ascii_of_nat 34) "".

(** The JSON text of two scenes. *)
Definition two_scenes_text : string :=
  "[{" ++ quoted "title" ++ ":" ++ quoted "The plan" ++ ","
       ++ quoted "prompt" ++ ":" ++ quoted "Wide shot of a vault at night" ++ "},{"
       ++ quoted "title" ++ ":" ++ quoted "The door" ++ ","
       ++ quoted "prompt" ++ ":" ++ quoted "Close-up of a dial turning" ++ "}]".

(** The first analysis answers the two scenes, later ones no JSON. *)
Definition generateContent (req : GenerateContent.request) (w : W)
  : settled GenerateContent.response * W :=
  (Resolved {| GenerateContent.text :=
                 Some (if (w =? 0)%nat then two_scenes_text else "Sorry, no scenes.") |},
   S w).

Definition generateVideos (payload : Payload.t) (w : W) : settled Operation * W :=
  (Resolved running, w).

(** The job is done at the second status request. *)
Definition getVideosOperation (operation : Operation) (w : W)
  : settled Operation * W :=
  (Resolved (if (2 <=? S w)%nat then finished else running), S w).

Definition fetch (url : string) (w : W) : settled FetchResponse * W :=
  (Resolved {| ok := true; status := 200; body := footage |}, w).

Definition res_blob (res : FetchResponse) (w : W) : settled Blob * W :=
  (Resolved (body res), w).

Definition createObjectURL (b : Blob) (w : W) : string * W :=
  (("blob:veo/" ++ pretty w)%string, S w).

(** A parser that knows one text. *)
Definition parse (s : string) : option json :=
  if String.eqb s two_scenes_text
  then Some (JArr [JObj [("title", JStr "The plan");
                         ("prompt", JStr "Wide shot of a vault at night")];
                   JObj [("title", JStr "The door");
                         ("prompt", JStr "Close-up of a dial turning")]])
  else None.

Definition decode (s : string) : option string := Some s.

Definition KEY : string := "KEY".
Definition VEO : VeoModel := "veo-fast".

Definition generateVideo' :=
  generateVideo W generateVideos getVideosOperation fetch res_blob createObjectURL
    decode KEY.
Definition parseScript' := parseScript W generateContent parse.
Definition handleGenerate' :=
  handleGenerate W generateVideos getVideosOperation fetch res_blob createObjectURL
    decode KEY.
Definition drive' :=
  drive W generateContent generateVideos getVideosOperation fetch res_blob
    createObjectURL parse decode KEY VEO.

Definition w0 : World W := {| outside := 0; objectURLs := [] |}.
Definition w1 : World W := {| outside := 1; objectURLs := [] |}.

Definition dawn : ImageFile := {| file_type := ""; base64 := "REFXTg==" |}.
Definition dusk : ImageFile := {| file_type := "image/jpeg"; base64 := "RFVTSw==" |}.

Definition fox : Form.fields :=
  {| Form.prompt := "a fox at dawn"; Form.model := "veo-3";
     Form.aspectRatio := LANDSCAPE; Form.resolution := P720;
     Form.generationMode := TEXT_TO_VIDEO;
     Form.startFrame := None; Form.endFrame := None;
     Form.referenceImages := []; Form.inputVideoObject := None;
     Form.isLooping := false |}.

Definition heist : Form.fields :=
  {| Form.prompt := "A heist in two scenes"; Form.model := "veo-3";
     Form.aspectRatio := LANDSCAPE; Form.resolution := P720;
     Form.generationMode := DIRECTOR;
     Form.startFrame := None; Form.endFrame := None;
     Form.referenceImages := []; Form.inputVideoObject := None;
     Form.isLooping := false |}.

Definition loop : GenerateVideoParams :=
  {| Params.prompt := Some (JStr "the sun goes round");
     Params.model := "veo-3"; Params.aspectRatio := LANDSCAPE;
     Params.resolution := P720; Params.mode := FRAMES_TO_VIDEO;
     Params.startFrame := Some dawn; Params.endFrame := Some dusk;
     Params.referenceImages := Some []; Params.inputVideoObject := None;
     Params.isLooping := Some true |}.

Definition extend : GenerateVideoParams :=
  {| Params.prompt := Some (JStr "and then it rains");
     Params.model := "veo-3"; Params.aspectRatio := LANDSCAPE;
     Params.resolution := P720; Params.mode := EXTEND_VIDEO;
     Params.startFrame := None; Params.endFrame := None;
     Params.referenceImages := Some []; Params.inputVideoObject := None;
     Params.isLooping := Some false |}.

Definition fox_payload : Payload.t :=
  {| Payload.model := "veo-3";
     Payload.config :=
       {| Config.numberOfVideos := 1; Config.resolution := P720;
          Config.aspectRatio := Some LANDSCAPE; Config.lastFrame := None;
          Config.referenceImages := None |};
     Payload.prompt := Some (JStr "a fox at dawn");
     Payload.image := None; Payload.video := None |}.

Definition fox_url : string := "https://media.example/clip.mp4?alt=media&key=KEY".

Definition fox_result : VideoResult.t :=
  {| VideoResult.objectUrl := "blob:veo/2"; VideoResult.blob := footage;
     VideoResult.uri := "https://media.example/clip.mp4?alt=media";
     VideoResult.video := clip |}.

Definition boom : thrown := new_Error "quota exceeded".

Definition fresh_scene (id title prompt : string) : StoryboardScene :=
  {| Scene.id := id; Scene.title := Some (JStr title);
     Scene.prompt := Some (JStr prompt);
     Scene.videoUrl := None; Scene.videoObject := None;
     Scene.status := status_idle |}.

Definition two_scenes : list StoryboardScene :=
  [fresh_scene "scene-0" "The plan" "Wide shot of a vault at night";
   fresh_scene "scene-1" "The door" "Close-up of a dial turning"].

(** Pages of two sessions: a single generation, and a storyboard. *)
Definition pg_loading : Page := resume VEO initial (Some (Submit fox)).
Definition pg_error : Page :=
  resume VEO pg_loading (Some (GenerateSettled (Rejected boom))).
Definition pg_success : Page :=
  resume VEO pg_loading (Some (GenerateSettled (Resolved fox_result))).
Definition pg_analysing : Page := resume VEO initial (Some (Submit heist)).
Definition pg_board : Page :=
  resume VEO pg_analysing (Some (ParseSettled (Resolved two_scenes))).
Definition pg_take : Page := resume VEO pg_board (Some (ProduceScene 0)).
Definition pg_flop : Page :=
  resume VEO pg_take (Some (SceneSettled 0 (Rejected boom))).

Definition sys0 : System W := {| page := initial; env := w0; history := [] |}.

Lemma pg_success_reachable : reachable VEO pg_success.
Proof. do 2 apply reachable_resume. apply reachable_initial. Qed.

Lemma pg_error_reachable : reachable VEO pg_error.
Proof. do 2 apply reachable_resume. apply reachable_initial. Qed.

Lemma pg_take_reachable : reachable VEO pg_take.
Proof. do 3 apply reachable_resume. apply reachable_initial. Qed.

Lemma pg_flop_reachable : reachable VEO pg_flop.
Proof. apply reachable_resume, pg_take_reachable. Qed.

Definition fox_pre : list Event :=
  [EvGenerateVideos fox_payload (Resolved running);
   EvSetTimeout POLL_DELAY; EvGetVideosOperation running (Resolved running);
   EvSetTimeout POLL_DELAY; EvGetVideosOperation running (Resolved finished)].

Definition fox_fetched : settled FetchResponse :=
  Resolved {| ok := true; status := 200; body := footage |}.

Definition fox_post : list Event :=
  [EvBlob (Resolved footage); EvCreateObjectURL footage "blob:veo/2"].

Lemma generateVideo_fetches_after_done_witness :
  (buildPayload (params_of fox) = Resolved fox_payload /\
   exists rest,
     trace (generateVideo' 5 (params_of fox) w0) =
       EvGenerateVideos fox_payload (generateVideos fox_payload (outside w0)).1 :: rest /\
     Forall (fun e => is_submit e = false) rest) /\
  (generateVideos fox_payload (outside w0) = (Resolved running, 0) /\
   exists polls rp tail,
     trace (generateVideo' 5 (params_of fox) w0) =
       EvGenerateVideos fox_payload (Resolved running) :: polls ++ tail /\
     Polling running polls rp /\
     Forall (fun e => is_job_event e = false) tail /\
     match rp with
     | Fulfilled opf =>
         op_done opf = true /\
         forall response firstVideo others videoObject url,
           op_response opf = Some response ->
           generatedVideos response = Some (firstVideo :: others) ->
           video firstVideo = Some videoObject ->
           decode (default "undefined" (uri videoObject)) = Some url ->
           exists fr post, tail = EvFetch (url ++ "&key=" ++ KEY) fr :: post
     | Failed e =>
         tail = [] /\ result (generateVideo' 5 (params_of fox) w0) = Failed e
     | Pending =>
         tail = [] /\ result (generateVideo' 5 (params_of fox) w0) = Pending /\
         exists rounds, polls = concat (poll_round <$> rounds) /\ length rounds = 5
     end) /\
  (trace (generateVideo' 5 (params_of fox) w0)
     = fox_pre ++ EvFetch fox_url fox_fetched :: fox_post /\
   exists payload op0 polls opf,
     buildPayload (params_of fox) = Resolved payload /\
     fox_pre = EvGenerateVideos payload (Resolved op0) :: polls /\
     Polling op0 polls (Fulfilled opf) /\
     op_done opf = true /\
     Forall (fun e => is_after_fetch e = true) fox_post).
Proof.
  destruct (generateVideo_fetches_after_done W generateVideos getVideosOperation
              fetch res_blob createObjectURL decode KEY 5 (params_of fox) w0)
    as (Hsubmit & Hpoll & Hfetch).
  assert (Hp : buildPayload (params_of fox) = Resolved fox_payload)
    by (vm_compute; reflexivity).
  assert (Hs : generateVideos fox_payload (outside w0) = (Resolved running, 0))
    by reflexivity.
  assert (H : trace (generateVideo' 5 (params_of fox) w0)
              = fox_pre ++ EvFetch fox_url fox_fetched :: fox_post)
    by (vm_compute; reflexivity).
  split; [|split].
  - split; [exact Hp|]. exact (Hsubmit fox_payload Hp).
  - split; [exact Hs|]. exact (Hpoll fox_payload running 0 Hp Hs).
  - split; [exact H|]. exact (Hfetch _ _ _ _ H).
Defined.

Lemma generateVideo_fixed_delay_example :
  trace (generateVideo' 5 (params_of fox) w0) =
    EvGenerateVideos fox_payload (Resolved running)
      :: concat (poll_round <$> [(running, Resolved running); (running, Resolved finished)])
      ++ EvFetch fox_url fox_fetched :: fox_post.
Proof. vm_compute. reflexivity. Qed.

Lemma parseScript_scenes_fresh_witness :
  result (parseScript' "A heist in two scenes" w0) = Fulfilled two_scenes /\
  two_scenes !! 1 = Some (fresh_scene "scene-1" "The door" "Close-up of a dial turning") /\
  Scene.id (fresh_scene "scene-1" "The door" "Close-up of a dial turning") = "scene-1" /\
  Scene.status (fresh_scene "scene-1" "The door" "Close-up of a dial turning") = status_idle.
Proof.
  assert (H : result (parseScript' "A heist in two scenes" w0) = Fulfilled two_scenes)
    by (vm_compute; reflexivity).
  destruct (parseScript_scenes_fresh _ _ _ _ _ _ 1 _ H eq_refl) as (Hid & Hst & _).
  split; [exact H|]. split; [reflexivity|]. split; [exact Hid|exact Hst].
Defined.

Lemma generateVideo_looping_lastFrame_witness :
  Params.mode loop = FRAMES_TO_VIDEO /\
  Params.isLooping loop = Some true /\
  Params.startFrame loop = Some dawn /\
  exists payload r0 rest,
    trace (generateVideo' 5 loop w0) = EvGenerateVideos payload r0 :: rest /\
    Config.lastFrame (Payload.config payload) =
      Some {| imageBytes := "REFXTg=="; mimeType := "image/png" |} /\
    forall endFrame, buildPayload (with_endFrame endFrame loop) = Resolved payload.
Proof.
  split; [reflexivity|]. split; [reflexivity|]. split; [reflexivity|].
  exact (generateVideo_looping_lastFrame W generateVideos getVideosOperation fetch
           res_blob createObjectURL decode KEY 5 loop w0 dawn eq_refl eq_refl eq_refl).
Defined.

Lemma generateVideo_extend_requires_input_witness :
  Params.mode extend = EXTEND_VIDEO /\
  Params.inputVideoObject extend = None /\
  result (generateVideo' 5 extend w0) =
    Failed (new_Error "An input video object is required to extend a video.") /\
  trace (generateVideo' 5 extend w0) = [] /\
  world (generateVideo' 5 extend w0) = w0.
Proof.
  split; [reflexivity|]. split; [reflexivity|].
  exact (generateVideo_extend_requires_input W generateVideos getVideosOperation
           fetch res_blob createObjectURL decode KEY 5 extend w0 eq_refl eq_refl).
Defined.

Lemma errors_become_one_message_witness :
  (result (generateVideo' 5 extend w0) =
     Failed (new_Error "An input video object is required to extend a video.") /\
   App.appState (handleGenerate' 5 extend App.init w0).1 = ERROR /\
   App.errorMessage (handleGenerate' 5 extend App.init w0).1 =
     Some "An input video object is required to extend a video.") /\
  (generateContent (script_request "A heist") (outside w1) =
     (Resolved {| GenerateContent.text := Some "Sorry, no scenes." |}, 2) /\
   Some "Sorry, no scenes." ≫= parse = None /\
   result (parseScript' "A heist" w1) =
     Failed (new_Error
       "Could not interpret the script. Please try a different description.")) /\
  (step VEO pg_analysing (ParseSettled (Rejected boom)) =
     Some (initial, [EffConsoleError;
                     EffAlert "Analysis failed. Try simplifying the script."]) /\
   app initial = app pg_analysing).
Proof.
  destruct (errors_become_one_message W generateContent generateVideos
              getVideosOperation fetch res_blob createObjectURL parse decode KEY VEO)
    as (Hgenerate & Hparse & Halert).
  split; [|split].
  - assert (H : result (generateVideo' 5 extend w0) =
                Failed (new_Error "An input video object is required to extend a video."))
      by (vm_compute; reflexivity).
    split; [exact H|]. exact (Hgenerate 5 extend App.init w0 _ H).
  - assert (H : generateContent (script_request "A heist") (outside w1) =
                (Resolved {| GenerateContent.text := Some "Sorry, no scenes." |}, 2))
      by reflexivity.
    split; [exact H|]. split; [reflexivity|].
    exact (Hparse "A heist" w1 _ _ H eq_refl).
  - assert (H : step VEO pg_analysing (ParseSettled (Rejected boom)) =
                Some (initial, [EffConsoleError;
                                EffAlert "Analysis failed. Try simplifying the script."]))
      by (vm_compute; reflexivity).
    split; [exact H|]. exact (proj2 (Halert _ _ _ _ H)).
Defined.

Definition pg_idle_again : Page := resume VEO pg_error (Some TryAgain).
Definition pg_retake : Page := resume VEO pg_flop (Some (RetryScene 0)).

Definition flop_scene : StoryboardScene :=
  set_status status_error
    (fresh_scene "scene-0" "The plan" "Wide shot of a vault at night").

Definition flop_board : Director.t :=
  {| Director.scenes :=
       [flop_scene; fresh_scene "scene-1" "The door" "Close-up of a dial turning"];
     Director.globalError := Some "Failed to generate Scene 1";
     Director.inflight := [] |}.

Definition retake_call : list Effect :=
  [EffGenerateVideo (ByScene 0)
     (scene_params VEO (app pg_flop) (Scene.prompt flop_scene))].

Lemma no_automatic_retry_witness :
  (step VEO initial (Submit fox) =
     Some (pg_loading, [EffGenerateVideo ByApp (params_of fox)]) /\
   Form.generationMode fox <> DIRECTOR) /\
  (step VEO pg_loading (GenerateSettled (Rejected boom)) = Some (pg_error, []) /\
   App.appState (app pg_error) = ERROR) /\
  (reachable VEO pg_error /\
   App.appState (app pg_error) = ERROR /\
   step VEO pg_error TryAgain = Some (pg_idle_again, []) /\
   App.appState (app pg_idle_again) = IDLE) /\
  (reachable VEO pg_flop /\
   director pg_flop = Some flop_board /\
   Director.scenes flop_board !! 0 = Some flop_scene /\
   Scene.status flop_scene = status_error /\
   step VEO pg_flop (RetryScene 0) = Some (pg_retake, retake_call) /\
   ((RetryScene 0 = RetryScene 0 /\ retake_call = retake_call) \/
    (RetryScene 0 = NewProject /\ director pg_retake = None /\ retake_call = []) \/
    (exists d', director pg_retake = Some d' /\
                Director.scenes d' !! 0 = Some flop_scene /\
                Forall (fun e => forall params,
                          e <> EffGenerateVideo (ByScene 0) params) retake_call))).
Proof.
  destruct (no_automatic_retry VEO) as (Honce & Hfail & Hstay & Hscene).
  split; [|split; [|split]].
  - assert (H : step VEO initial (Submit fox) =
                Some (pg_loading, [EffGenerateVideo ByApp (params_of fox)]))
      by (vm_compute; reflexivity).
    assert (Hmode : Form.generationMode fox <> DIRECTOR) by discriminate.
    pose proof (Honce _ _ _ _ H Hmode) as _. split; [exact H|exact Hmode].
  - assert (H : step VEO pg_loading (GenerateSettled (Rejected boom)) =
                Some (pg_error, [])) by (vm_compute; reflexivity).
    split; [exact H|]. exact (proj1 (Hfail _ _ _ _ H)).
  - assert (H : step VEO pg_error TryAgain = Some (pg_idle_again, []))
      by (vm_compute; reflexivity).
    destruct (Hstay _ _ _ _ pg_error_reachable eq_refl H) as (_ & Hidle & _).
    split; [apply pg_error_reachable|]. split; [reflexivity|].
    split; [exact H|exact Hidle].
  - assert (Hd : director pg_flop = Some flop_board) by (vm_compute; reflexivity).
    assert (H : step VEO pg_flop (RetryScene 0) = Some (pg_retake, retake_call))
      by (vm_compute; reflexivity).
    split; [apply pg_flop_reachable|]. split; [exact Hd|].
    split; [reflexivity|]. split; [reflexivity|]. split; [exact H|].
    exact (Hscene _ _ _ _ _ 0 flop_scene pg_flop_reachable Hd eq_refl eq_refl H).
Defined.

Definition pg_loading_again : Page := resume VEO pg_success (Some Retry).

(** C5, as the spec words it, fails: Retry leads from [SUCCESS] to
    [LOADING]. *)
Lemma retry_leaves_success_for_loading : ~ only_back_to_idle VEO.
Proof.
  intros Hclaim.
  assert (Hstep : step VEO pg_success Retry =
                  Some (pg_loading_again, [EffGenerateVideo ByApp (params_of fox)]))
    by (vm_compute; reflexivity).
  assert (Hidle : App.appState (app pg_loading_again) = IDLE).
  { apply (Hclaim _ _ _ _ pg_success_reachable Hstep); [by left|discriminate]. }
  discriminate Hidle.
Qed.

Lemma view_state_machine_witness :
  reachable VEO pg_success /\
  step VEO pg_success Retry =
    Some (pg_loading_again, [EffGenerateVideo ByApp (params_of fox)]) /\
  App.appState (app pg_loading_again) <> App.appState (app pg_success) /\
  transition (App.appState (app pg_success)) Retry
    (App.appState (app pg_loading_again)).
Proof.
  assert (Hstep : step VEO pg_success Retry =
                  Some (pg_loading_again, [EffGenerateVideo ByApp (params_of fox)]))
    by (vm_compute; reflexivity).
  assert (Hne : App.appState (app pg_loading_again) <> App.appState (app pg_success))
    by discriminate.
  split; [apply pg_success_reachable|]. split; [exact Hstep|]. split; [exact Hne|].
  exact (view_state_machine VEO _ _ _ _ pg_success_reachable Hstep Hne).
Defined.

Definition take_board : Director.t :=
  {| Director.scenes :=
       [set_status status_generating
          (fresh_scene "scene-0" "The plan" "Wide shot of a vault at night");
        fresh_scene "scene-1" "The door" "Close-up of a dial turning"];
     Director.globalError := None;
     Director.inflight := [0] |}.

Definition pg_shot : Page :=
  resume VEO pg_take (Some (SceneSettled 0 (Resolved fox_result))).

Lemma produce_scene_one_call_one_scene_witness :
  (step VEO pg_board (ProduceScene 0) =
     Some (pg_take,
           [EffGenerateVideo (ByScene 0)
              (scene_params VEO (app pg_board)
                 (Some (JStr "Wide shot of a vault at night")))]) /\
   director pg_take = Some take_board) /\
  (reachable VEO pg_take /\
   step VEO pg_take (SceneSettled 0 (Resolved fox_result)) = Some (pg_shot, []) /\
   exists d',
     director pg_shot = Some d' /\
     Director.scenes d' !! 0 =
       Some (set_done fox_result
               (fresh_scene "scene-0" "The plan" "Wide shot of a vault at night")) /\
     Director.scenes d' !! 1 =
       Some (fresh_scene "scene-1" "The door" "Close-up of a dial turning")).
Proof.
  destruct (produce_scene_one_call_one_scene VEO 0) as (Hbegin & Hsettle).
  split.
  - assert (H : step VEO pg_board (ProduceScene 0) =
                Some (pg_take,
                      [EffGenerateVideo (ByScene 0)
                         (scene_params VEO (app pg_board)
                            (Some (JStr "Wide shot of a vault at night")))]))
      by (vm_compute; reflexivity).
    destruct (Hbegin _ _ _ H) as (d & scene & d' & _ & _ & Hd' & _).
    split; [exact H|]. vm_compute. reflexivity.
  - assert (H : step VEO pg_take (SceneSettled 0 (Resolved fox_result)) =
                Some (pg_shot, [])) by (vm_compute; reflexivity).
    destruct (Hsettle _ _ _ _ pg_take_reachable H)
      as (d & scene & d' & scene' & Hd & Hs & Hd' & Hs' & _ & _ & _ & Hframe & _).
    split; [apply pg_take_reachable|]. split; [exact H|].
    exists d'. split; [exact Hd'|].
    assert (Ht : director pg_take = Some take_board) by (vm_compute; reflexivity).
    rewrite Ht in Hd. injection Hd as <-.
    assert (Hshot : director pg_shot =
                    Some {| Director.scenes :=
                              update_scene 0 (set_done fox_result)
                                (Director.scenes take_board);
                            Director.globalError := None;
                            Director.inflight := [] |})
      by (vm_compute; reflexivity).
    rewrite Hshot in Hd'. injection Hd' as <-.
    split; [reflexivity|].
    rewrite (Hframe 1) by discriminate. reflexivity.
Defined.

Definition sys_success : System W :=
  default sys0 (drive' 5 sys0 (Submit fox)).


(** Had a handler revoked the URL, it would be alive no longer. *)
Lemma revoked_url_is_gone :
  "blob:veo/2" ∈ objectURLs (env sys_success) /\
  "blob:veo/2" ∉ objectURLs (env (perform W generateContent generateVideos
                                    getVideosOperation fetch res_blob createObjectURL
                                    parse decode KEY VEO 5 sys_success
                                    (EffRevokeObjectURL "blob:veo/2"))).
Proof.
  split; [vm_compute; apply list_elem_of_here|].
  vm_compute. apply not_elem_of_nil.
Qed.


(** ** More services, and what the further properties say of them *)

(** A service whose job is done at once. *)
Definition generateVideos_done (payload : Payload.t) (w : W) : settled Operation * W :=
  (Resolved finished, w).

(** A service whose status request is rejected. *)
Definition getVideosOperation_down (operation : Operation) (w : W)
  : settled Operation * W :=
  (Rejected boom, S w).

(** A download that is refused. *)
Definition forbidden : FetchResponse := {| ok := false; status := 403; body := footage |}.

Definition fetch_forbidden (url : string) (w : W) : settled FetchResponse * W :=
  (Resolved forbidden, w).

(** An analysis that answers an array holding [null]. *)
Definition generateContent_null (req : GenerateContent.request) (w : W)
  : settled GenerateContent.response * W :=
  (Resolved {| GenerateContent.text := Some "[null]" |}, S w).

Definition parse_null (s : string) : option json :=
  if String.eqb s "[null]" then Some (JArr [JNull]) else None.

Definition two_items : list json :=
  [JObj [("title", JStr "The plan"); ("prompt", JStr "Wide shot of a vault at night")];
   JObj [("title", JStr "The door"); ("prompt", JStr "Close-up of a dial turning")]].

Definition dawn_png : ImagePayload :=
  {| imageBytes := "REFXTg=="; mimeType := "image/png" |}.

Definition loop_payload : Payload.t :=
  {| Payload.model := "veo-3";
     Payload.config :=
       {| Config.numberOfVideos := 1; Config.resolution := P720;
          Config.aspectRatio := Some LANDSCAPE; Config.lastFrame := Some dawn_png;
          Config.referenceImages := None |};
     Payload.prompt := Some (JStr "the sun goes round");
     Payload.image := Some dawn_png; Payload.video := None |}.

Definition moodboard : GenerateVideoParams :=
  {| Params.prompt := Some (JStr "a day in two pictures");
     Params.model := "veo-3"; Params.aspectRatio := PORTRAIT;
     Params.resolution := P1080; Params.mode := REFERENCES_TO_VIDEO;
     Params.startFrame := None; Params.endFrame := Some dusk;
     Params.referenceImages := Some [dawn; dusk]; Params.inputVideoObject := Some clip;
     Params.isLooping := Some false |}.

Definition moodboard_payload : Payload.t :=
  {| Payload.model := "veo-3";
     Payload.config :=
       {| Config.numberOfVideos := 1; Config.resolution := P1080;
          Config.aspectRatio := Some PORTRAIT; Config.lastFrame := None;
          Config.referenceImages :=
            Some [ {| image := dawn_png; referenceType := ASSET |};
                   {| image := {| imageBytes := "RFVTSw=="; mimeType := "image/jpeg" |};
                      referenceType := ASSET |} ] |};
     Payload.prompt := Some (JStr "a day in two pictures");
     Payload.image := None; Payload.video := None |}.

Lemma payload_by_mode_witness :
  buildPayload moodboard = Resolved moodboard_payload /\
  Config.lastFrame (Payload.config moodboard_payload) = None /\
  Payload.video moodboard_payload = None.
Proof.
  assert (H : buildPayload moodboard = Resolved moodboard_payload) by reflexivity.
  destruct (payload_by_mode moodboard moodboard_payload H)
    as (Hlast & _ & Hvideo & _).
  split; [exact H|]. split; [apply Hlast; discriminate|].
  apply Hvideo. discriminate.
Defined.

Lemma payload_referenceImages_witness :
  buildPayload moodboard = Resolved moodboard_payload /\
  Params.mode moodboard = REFERENCES_TO_VIDEO /\
  exists refs,
    Config.referenceImages (Payload.config moodboard_payload) = Some refs /\
    length refs = 2 /\
    refs !! 1 = Some {| image := {| imageBytes := "RFVTSw=="; mimeType := "image/jpeg" |};
                        referenceType := ASSET |}.
Proof.
  assert (H : buildPayload moodboard = Resolved moodboard_payload) by reflexivity.
  destruct (payload_referenceImages moodboard moodboard_payload H eq_refl) as [_ Hsome].
  destruct Hsome as (refs & Hrefs & Hlen & Heach); [discriminate|].
  split; [exact H|]. split; [reflexivity|].
  exists refs. split; [exact Hrefs|]. split; [exact Hlen|].
  exact (Heach 1 dusk eq_refl).
Defined.

Lemma payload_lastFrame_witness :
  buildPayload loop = Resolved loop_payload /\
  Params.mode loop = FRAMES_TO_VIDEO /\
  Params.isLooping loop = Some true /\
  Config.lastFrame (Payload.config loop_payload) = Some dawn_png.
Proof.
  assert (H : buildPayload loop = Resolved loop_payload) by reflexivity.
  destruct (payload_lastFrame loop loop_payload H eq_refl) as [_ Hloop].
  split; [exact H|]. split; [reflexivity|]. split; [reflexivity|].
  exact (proj1 (Hloop eq_refl)).
Defined.

Definition dusk_jpeg : ImagePayload :=
  {| imageBytes := "RFVTSw=="; mimeType := "image/jpeg" |}.

Lemma payload_mimeTypes_witness :
  buildPayload moodboard = Resolved moodboard_payload /\
  Forall (fun ip =>
            mimeType ip <> "" /\
            exists img, img ∈ [dusk; dawn; dusk] /\ sent_as img ip)
    [dawn_png; dusk_jpeg].
Proof.
  assert (H : buildPayload moodboard = Resolved moodboard_payload) by reflexivity.
  split; [exact H|]. exact (payload_mimeTypes moodboard moodboard_payload H).
Defined.

Definition generateVideo_down :=
  generateVideo W generateVideos getVideosOperation_down fetch res_blob createObjectURL
    decode KEY.
Definition generateVideo_done :=
  generateVideo W generateVideos_done getVideosOperation fetch res_blob createObjectURL
    decode KEY.
Definition generateVideo_forbidden :=
  generateVideo W generateVideos_done getVideosOperation fetch_forbidden res_blob
    createObjectURL decode KEY.

Lemma generateVideo_rejection_is_final_witness :
  trace (generateVideo_down 5 (params_of fox) w0) =
    [EvGenerateVideos fox_payload (Resolved running); EvSetTimeout POLL_DELAY]
      ++ EvGetVideosOperation running (Rejected boom) :: [] /\
  rejection_of (EvGetVideosOperation running (Rejected boom)) = Some boom /\
  result (generateVideo_down 5 (params_of fox) w0) = Failed boom.
Proof.
  assert (H : trace (generateVideo_down 5 (params_of fox) w0) =
              [EvGenerateVideos fox_payload (Resolved running); EvSetTimeout POLL_DELAY]
                ++ EvGetVideosOperation running (Rejected boom) :: [])
    by (vm_compute; reflexivity).
  split; [exact H|]. split; [reflexivity|].
  exact (proj2 (generateVideo_rejection_is_final W generateVideos
                  getVideosOperation_down fetch res_blob createObjectURL decode KEY
                  5 (params_of fox) w0 _ _ _ boom H eq_refl)).
Defined.

Definition done_rest : list Event :=
  [EvFetch fox_url fox_fetched; EvBlob (Resolved footage);
   EvCreateObjectURL footage "blob:veo/0"].

Lemma generateVideo_done_at_once_witness :
  trace (generateVideo_done 5 (params_of fox) w0) =
    EvGenerateVideos fox_payload (Resolved finished) :: done_rest /\
  op_done finished = true /\
  Forall (fun ev => is_job_event ev = false) done_rest.
Proof.
  assert (H : trace (generateVideo_done 5 (params_of fox) w0) =
              EvGenerateVideos fox_payload (Resolved finished) :: done_rest)
    by (vm_compute; reflexivity).
  split; [exact H|]. split; [reflexivity|].
  exact (generateVideo_done_at_once W generateVideos_done getVideosOperation fetch
           res_blob createObjectURL decode KEY 5 (params_of fox) w0 _ _ _ H eq_refl).
Defined.


Lemma generateVideo_no_url_unless_fulfilled_witness :
  (forall res, result (generateVideo' 5 extend w0) <> Fulfilled res) /\
  objectURLs (world (generateVideo' 5 extend w0)) = objectURLs w0.
Proof.
  assert (H : forall res, result (generateVideo' 5 extend w0) <> Fulfilled res)
    by (intros res; vm_compute; discriminate).
  split; [exact H|].
  exact (generateVideo_no_url_unless_fulfilled W generateVideos getVideosOperation fetch
           res_blob createObjectURL decode KEY 5 extend w0 H).
Defined.

Lemma generateVideo_download_refused_witness :
  trace (generateVideo_forbidden 5 (params_of fox) w0) =
    [EvGenerateVideos fox_payload (Resolved finished)]
      ++ EvFetch fox_url (Resolved forbidden) :: [] /\
  ok forbidden = false /\
  result (generateVideo_forbidden 5 (params_of fox) w0) =
    Failed (new_Error "Failed to fetch video: 403") /\
  objectURLs (world (generateVideo_forbidden 5 (params_of fox) w0)) = [].
Proof.
  assert (H : trace (generateVideo_forbidden 5 (params_of fox) w0) =
              [EvGenerateVideos fox_payload (Resolved finished)]
                ++ EvFetch fox_url (Resolved forbidden) :: [])
    by (vm_compute; reflexivity).
  split; [exact H|]. split; [reflexivity|].
  exact (proj2 (generateVideo_download_refused W generateVideos_done getVideosOperation
                  fetch_forbidden res_blob createObjectURL decode KEY
                  5 (params_of fox) w0 _ _ _ _ H eq_refl)).
Defined.

Lemma generateVideo_fulfilled_witness :
  result (generateVideo' 5 (params_of fox) w0) = Fulfilled fox_result /\
  exists payload op0 polls opf response firstVideo others fr,
    trace (generateVideo' 5 (params_of fox) w0) =
      EvGenerateVideos payload (Resolved op0) :: polls ++
        [EvFetch fox_url (Resolved fr); EvBlob (Resolved footage);
         EvCreateObjectURL footage "blob:veo/2"] /\
    Polling op0 polls (Fulfilled opf) /\
    op_response opf = Some response /\
    generatedVideos response = Some (firstVideo :: others) /\
    video firstVideo = Some clip /\
    decode "https://media.example/clip.mp4?alt=media"
      = Some "https://media.example/clip.mp4?alt=media" /\
    ok fr = true.
Proof.
  assert (H : result (generateVideo' 5 (params_of fox) w0) = Fulfilled fox_result)
    by (vm_compute; reflexivity).
  split; [exact H|].
  exact (generateVideo_fulfilled W generateVideos getVideosOperation fetch res_blob
           createObjectURL decode KEY 5 (params_of fox) w0 fox_result H).
Defined.

Lemma two_items_without_null : JNull ∉ two_items.
Proof.
  intros H. unfold two_items in H.
  repeat (apply elem_of_cons in H as [H|H]; [discriminate|]).
  by apply elem_of_nil in H.
Qed.

Lemma parseScript_scene_per_item_witness :
  generateContent (script_request "A heist in two scenes") (outside w0) =
    (Resolved {| GenerateContent.text := Some two_scenes_text |}, 1) /\
  (Some two_scenes_text ≫= parse) = Some (JArr two_items) /\
  (JNull ∉ two_items) /\
  exists scenes,
    result (parseScript' "A heist in two scenes" w0) = Fulfilled scenes /\
    length scenes = 2.
Proof.
  assert (H : generateContent (script_request "A heist in two scenes") (outside w0) =
              (Resolved {| GenerateContent.text := Some two_scenes_text |}, 1))
    by reflexivity.
  assert (Hp : (Some two_scenes_text ≫= parse) = Some (JArr two_items))
    by (vm_compute; reflexivity).
  destruct (parseScript_scene_per_item W generateContent parse
              "A heist in two scenes" w0 _ _ two_items H Hp two_items_without_null)
    as (scenes & Hres & Hlen & _).
  split; [exact H|]. split; [exact Hp|]. split; [exact two_items_without_null|].
  exists scenes. split; [exact Hres|exact Hlen].
Defined.

Lemma parseScript_not_a_storyboard_witness :
  generateContent_null (script_request "A heist") (outside w0) =
    (Resolved {| GenerateContent.text := Some "[null]" |}, 1) /\
  (Some "[null]" ≫= parse_null) = Some (JArr [JNull]) /\
  (forall items, JArr [JNull] = JArr items -> JNull ∈ items) /\
  result (parseScript W generateContent_null parse_null "A heist" w0) =
    Failed (new_Error
      "Could not interpret the script. Please try a different description.").
Proof.
  assert (H : generateContent_null (script_request "A heist") (outside w0) =
              (Resolved {| GenerateContent.text := Some "[null]" |}, 1))
    by reflexivity.
  assert (Hp : (Some "[null]" ≫= parse_null) = Some (JArr [JNull])) by reflexivity.
  assert (Hbad : forall items, JArr [JNull] = JArr items -> JNull ∈ items).
  { intros items [= <-]. apply list_elem_of_here. }
  split; [exact H|]. split; [exact Hp|]. split; [exact Hbad|].
  exact (parseScript_not_a_storyboard W generateContent_null parse_null "A heist" w0
           _ _ _ H Hp Hbad).
Defined.

Lemma pg_loading_reachable : reachable VEO pg_loading.
Proof. apply reachable_resume, reachable_initial. Qed.

Lemma pg_shot_reachable : reachable VEO pg_shot.
Proof. apply reachable_resume, pg_take_reachable. Qed.

Lemma view_has_what_it_shows_witness :
  reachable VEO pg_error /\
  App.appState (app pg_error) = ERROR /\
  is_Some (App.errorMessage (app pg_error)).
Proof.
  split; [apply pg_error_reachable|]. split; [reflexivity|].
  exact (proj1 (view_has_what_it_shows VEO pg_error pg_error_reachable) eq_refl).
Defined.

Lemma one_request_at_a_time_witness :
  reachable VEO pg_loading /\
  pendingGenerate pg_loading + pendingParse pg_loading = 1 /\
  step VEO pg_loading (GenerateSettled (Rejected boom)) = Some (pg_error, []) /\
  ((pendingGenerate pg_loading = 1 /\
    exists r, GenerateSettled (Rejected boom) = GenerateSettled r) \/
   (pendingParse pg_loading = 1 /\
    exists r, GenerateSettled (Rejected boom) = ParseSettled r)).
Proof.
  assert (H : step VEO pg_loading (GenerateSettled (Rejected boom)) = Some (pg_error, []))
    by (vm_compute; reflexivity).
  split; [apply pg_loading_reachable|]. split; [reflexivity|]. split; [exact H|].
  exact (proj2 (one_request_at_a_time VEO pg_loading pg_loading_reachable)
           _ _ _ eq_refl H).
Defined.

Lemma pg_board_reachable : reachable VEO pg_board.
Proof. do 2 apply reachable_resume. apply reachable_initial. Qed.

Definition first_take : GenerateVideoParams :=
  scene_params VEO (app pg_board) (Some (JStr "Wide shot of a vault at night")).

Lemma never_generates_in_director_mode_witness :
  (step VEO initial (Submit heist) =
     Some (pg_analysing, [EffParseScript "A heist in two scenes"]) /\
   Form.generationMode heist = DIRECTOR /\
   [EffParseScript "A heist in two scenes"] = [EffParseScript (Form.prompt heist)]) /\
  (step VEO pg_success Retry =
     Some (pg_loading_again, [EffGenerateVideo ByApp (params_of fox)]) /\
   Params.mode (params_of fox) <> DIRECTOR /\
   ((exists f, Retry = Submit f /\ params_of fox = params_of f) \/
    (Retry = Retry /\ App.lastConfig (app pg_success) = Some (params_of fox)))) /\
  (step VEO pg_board (ProduceScene 0) =
     Some (pg_take, [EffGenerateVideo (ByScene 0) first_take]) /\
   Params.mode first_take <> DIRECTOR /\
   (ProduceScene 0 = ProduceScene 0 \/ ProduceScene 0 = RetryScene 0) /\
   Params.mode first_take = TEXT_TO_VIDEO).
Proof.
  assert (Hscript : step VEO initial (Submit heist) =
                      Some (pg_analysing, [EffParseScript "A heist in two scenes"]))
    by (vm_compute; reflexivity).
  assert (Hdir : Form.generationMode heist = DIRECTOR) by reflexivity.
  assert (Hretry : step VEO pg_success Retry =
                     Some (pg_loading_again, [EffGenerateVideo ByApp (params_of fox)]))
    by (vm_compute; reflexivity).
  assert (Hscene : step VEO pg_board (ProduceScene 0) =
                     Some (pg_take, [EffGenerateVideo (ByScene 0) first_take]))
    by (vm_compute; reflexivity).
  split; [|split].
  - split; [exact Hscript|]. split; [exact Hdir|].
    exact (proj1 (never_generates_in_director_mode VEO initial
                    (reachable_initial VEO)) heist _ _ Hscript Hdir).
  - split; [exact Hretry|].
    exact (proj2 (never_generates_in_director_mode VEO pg_success
                    pg_success_reachable) Retry _ _ ByApp (params_of fox) Hretry
             (list_elem_of_here _ _)).
  - split; [exact Hscene|].
    exact (proj2 (never_generates_in_director_mode VEO pg_board
                    pg_board_reachable) (ProduceScene 0) _ _ (ByScene 0) first_take
             Hscene (list_elem_of_here _ _)).
Defined.

Lemma retry_repeats_submission_witness :
  step VEO initial (Submit fox) =
    Some (pg_loading, [EffGenerateVideo ByApp (params_of fox)]) /\
  Form.generationMode fox <> DIRECTOR /\
  step VEO pg_loading (GenerateSettled (Resolved fox_result)) = Some (pg_success, []) /\
  step VEO pg_success Retry =
    Some (pg_loading_again, [EffGenerateVideo ByApp (params_of fox)]) /\
  App.appState (app pg_loading_again) = LOADING.
Proof.
  assert (H1 : step VEO initial (Submit fox) =
               Some (pg_loading, [EffGenerateVideo ByApp (params_of fox)]))
    by (vm_compute; reflexivity).
  assert (Hmode : Form.generationMode fox <> DIRECTOR) by discriminate.
  assert (H2 : step VEO pg_loading (GenerateSettled (Resolved fox_result)) =
               Some (pg_success, [])) by (vm_compute; reflexivity).
  assert (H3 : step VEO pg_success Retry =
               Some (pg_loading_again, [EffGenerateVideo ByApp (params_of fox)]))
    by (vm_compute; reflexivity).
  split; [exact H1|]. split; [exact Hmode|]. split; [exact H2|]. split; [exact H3|].
  exact (proj2 (proj2 (retry_repeats_submission VEO _ _ _ _ _ _ _ _ _ H1 Hmode H2 H3))).
Defined.



Definition shot_scene : StoryboardScene :=
  set_done fox_result (fresh_scene "scene-0" "The plan" "Wide shot of a vault at night").

Definition shot_board : Director.t :=
  {| Director.scenes :=
       [shot_scene; fresh_scene "scene-1" "The door" "Close-up of a dial turning"];
     Director.globalError := None;
     Director.inflight := [] |}.

Definition pg_second_take : Page := resume VEO pg_shot (Some (ProduceScene 1)).

Definition second_call : list Effect :=
  [EffGenerateVideo (ByScene 1)
     (scene_params VEO (app pg_shot) (Some (JStr "Close-up of a dial turning")))].

Lemma done_scene_is_final_witness :
  reachable VEO pg_shot /\
  director pg_shot = Some shot_board /\
  Director.scenes shot_board !! 0 = Some shot_scene /\
  Scene.status shot_scene = status_done /\
  step VEO pg_shot (ProduceScene 1) = Some (pg_second_take, second_call) /\
  ((ProduceScene 1 = NewProject /\ director pg_second_take = None) \/
   (exists d', director pg_second_take = Some d' /\
               Director.scenes d' !! 0 = Some shot_scene /\
               forall params, EffGenerateVideo (ByScene 0) params ∉ second_call)).
Proof.
  assert (Hd : director pg_shot = Some shot_board) by (vm_compute; reflexivity).
  assert (H : step VEO pg_shot (ProduceScene 1) = Some (pg_second_take, second_call))
    by (vm_compute; reflexivity).
  split; [apply pg_shot_reachable|]. split; [exact Hd|].
  split; [reflexivity|]. split; [reflexivity|]. split; [exact H|].
  exact (done_scene_is_final VEO _ _ _ _ _ 0 shot_scene pg_shot_reachable Hd
           eq_refl eq_refl H).
Defined.

Lemma handleGenerateScene_without_scene_witness :
  Director.scenes shot_board !! 5 = None /\
  (handleGenerateScene_begin VEO App.init 5 shot_board).2 = [EffConsoleError] /\
  Director.scenes (handleGenerateScene_begin VEO App.init 5 shot_board).1 =
    Director.scenes shot_board /\
  Director.globalError (handleGenerateScene_begin VEO App.init 5 shot_board).1 =
    Some "Failed to generate Scene 6".
Proof.
  split; [reflexivity|].
  exact (handleGenerateScene_without_scene VEO App.init 5 shot_board eq_refl).
Defined.

(** A prompt of one no-break space (U+00A0), a line separator (U+2028) and
    an ideographic space (U+3000). *)
Definition spaces : string :=
  String (Ascii.ascii_of_nat 194) (String (Ascii.ascii_of_nat 160)
  (String (Ascii.ascii_of_nat 226) (String (Ascii.ascii_of_nat 128)
  (String (Ascii.ascii_of_nat 168)
  (String (Ascii.ascii_of_nat 227) (String (Ascii.ascii_of_nat 128)
  (String (Ascii.ascii_of_nat 128) EmptyString))))))).

Definition hush : Form.fields :=
  {| Form.prompt := spaces; Form.model := "veo-3";
     Form.aspectRatio := LANDSCAPE; Form.resolution := P720;
     Form.generationMode := TEXT_TO_VIDEO;
     Form.startFrame := None; Form.endFrame := None;
     Form.referenceImages := []; Form.inputVideoObject := None;
     Form.isLooping := false |}.

Lemma submitted_request_has_prompt_witness :
  (blank (Form.prompt hush) = true /\ step VEO initial (Submit hush) = None) /\
  (step VEO initial (Submit fox) =
     Some (pg_loading, [EffGenerateVideo ByApp (params_of fox)]) /\
   Form.generationMode fox <> DIRECTOR /\
   buildPayload (params_of fox) = Resolved fox_payload /\
   Payload.prompt fox_payload = Some (JStr "a fox at dawn")).
Proof.
  assert (Hblank : blank (Form.prompt hush) = true) by (vm_compute; reflexivity).
  assert (H : step VEO initial (Submit fox) =
              Some (pg_loading, [EffGenerateVideo ByApp (params_of fox)]))
    by (vm_compute; reflexivity).
  assert (Hmode : Form.generationMode fox <> DIRECTOR) by discriminate.
  assert (Hp : buildPayload (params_of fox) = Resolved fox_payload) by reflexivity.
  split.
  - split; [exact Hblank|].
    exact (proj1 (submitted_request_has_prompt VEO initial hush) Hblank).
  - split; [exact H|]. split; [exact Hmode|]. split; [exact Hp|].
    exact (proj2 (proj2 (proj2 (submitted_request_has_prompt VEO initial fox)
                           _ _ H Hmode)) _ Hp).
Defined.

Lemma page_offers_a_button_witness :
  (reachable VEO pg_success /\
   App.videoUrl (app pg_success) <> Some "" /\
   App.appState (app pg_success) <> LOADING /\
   exists act pg' effs,
     is_button act = true /\ step VEO pg_success act = Some (pg', effs)) /\
  (reachable VEO pg_loading /\
   App.appState (app pg_loading) = LOADING /\
   ~ exists act pg' effs,
       is_button act = true /\ step VEO pg_loading act = Some (pg', effs)).
Proof.
  split.
  - assert (Hurl : App.videoUrl (app pg_success) <> Some "") by discriminate.
    assert (Hstate : App.appState (app pg_success) <> LOADING) by discriminate.
    assert (Hform : forall s, form pg_success = Some s -> Form.isAnalyzing s = false)
      by (intros s Hs; vm_compute in Hs; discriminate).
    split; [apply pg_success_reachable|]. split; [exact Hurl|]. split; [exact Hstate|].
    exact (proj2 (page_offers_a_button VEO pg_success pg_success_reachable Hurl)
             (conj Hstate Hform)).
  - assert (Hurl : App.videoUrl (app pg_loading) <> Some "") by discriminate.
    assert (Hstate : App.appState (app pg_loading) = LOADING) by reflexivity.
    split; [apply pg_loading_reachable|]. split; [exact Hstate|].
    intros Hbutton.
    exact (proj1 (proj1 (page_offers_a_button VEO pg_loading pg_loading_reachable Hurl)
                    Hbutton) Hstate).
Defined.

Definition sys_board : System W := default sys0 (drive' 5 sys0 (Submit heist)).

Lemma drive_generation_witness :
  reachable VEO (page sys0) /\
  drive' 5 sys0 (Submit fox) = Some sys_success /\
  Form.generationMode fox <> DIRECTOR /\
  result (generateVideo' 5 (params_of fox) (env sys0)) = Fulfilled fox_result /\
  App.appState (app (page sys_success)) = SUCCESS /\
  App.videoUrl (app (page sys_success)) = Some "blob:veo/2" /\
  "blob:veo/2" ∈ objectURLs (env sys_success).
Proof.
  assert (H : drive' 5 sys0 (Submit fox) = Some sys_success)
    by (vm_compute; reflexivity).
  assert (Hmode : Form.generationMode fox <> DIRECTOR) by discriminate.
  assert (Hres : result (generateVideo' 5 (params_of fox) (env sys0)) =
                 Fulfilled fox_result) by (vm_compute; reflexivity).
  pose proof (drive_generation W generateContent generateVideos getVideosOperation
                fetch res_blob createObjectURL parse decode KEY VEO 5 sys0 fox
                sys_success (reachable_initial VEO) H Hmode) as (_ & _ & Hout).
  unfold generateVideo' in Hres. rewrite Hres in Hout.
  destruct Hout as (Hst & Hurl & Hin & _).
  split; [apply reachable_initial|]. split; [exact H|]. split; [exact Hmode|].
  split; [exact Hres|]. split; [exact Hst|]. split; [exact Hurl|exact Hin].
Defined.

Lemma drive_analysis_witness :
  reachable VEO (page sys0) /\
  drive' 5 sys0 (Submit heist) = Some sys_board /\
  Form.generationMode heist = DIRECTOR /\
  result (parseScript' "A heist in two scenes" (env sys0)) = Fulfilled two_scenes /\
  App.appState (app (page sys_board)) = DIRECTOR_READY /\
  director (page sys_board) =
    Some {| Director.scenes := two_scenes; Director.globalError := None;
            Director.inflight := [] |}.
Proof.
  assert (H : drive' 5 sys0 (Submit heist) = Some sys_board)
    by (vm_compute; reflexivity).
  assert (Hres : result (parseScript' "A heist in two scenes" (env sys0)) =
                 Fulfilled two_scenes) by (vm_compute; reflexivity).
  pose proof (drive_analysis W generateContent generateVideos getVideosOperation
                fetch res_blob createObjectURL parse decode KEY VEO 5 sys0 heist
                sys_board (reachable_initial VEO) H eq_refl) as (_ & Hout).
  unfold parseScript' in Hres. simpl Form.prompt in Hout. rewrite Hres in Hout.
  destruct Hout as (Hst & _ & Hdir & _).
  split; [apply reachable_initial|]. split; [exact H|]. split; [reflexivity|].
  split; [exact Hres|]. split; [exact Hst|exact Hdir].
Defined.

Lemma scene_settlements_commute_witness :
  0 <> 1 /\
  Director.scenes
    (handleGenerateScene_settle 1 (Rejected boom)
       (handleGenerateScene_settle 0 (Resolved fox_result) take_board).1).1 =
  Director.scenes
    (handleGenerateScene_settle 0 (Resolved fox_result)
       (handleGenerateScene_settle 1 (Rejected boom) take_board).1).1.
Proof.
  assert (H : 0 <> 1) by discriminate.
  split; [exact H|].
  exact (proj1 (scene_settlements_commute 0 1 (Resolved fox_result) (Rejected boom)
                  take_board H)).
Defined.

End Rehearsal.
